(** * Bengali-to-English transliterator: a shallow embedding

    The definitions below follow [src/bengali_english_translator.py]
    (class [BengaliEnglishTransliterator]).  A Python [str] is a sequence
    of Unicode code points, so a string is a list of integers; the two
    dictionaries are finite maps keyed by strings, as in the source. *)

From Stdlib Require Import ZArith Lia Ascii String.
From stdpp Require Import gmap list.
From Equations Require Import Equations.

Local Open Scope Z_scope.

(** ** Python strings *)

(** A string is its list of code points. *)
Abbreviation str := (list Z).

(** [py "abc"] is the Python literal ['abc'] (ASCII text only). *)
Fixpoint py (s : string) : str :=
  match s with
  | EmptyString => []
  | String a s' => Z.of_N (N_of_ascii a) :: py s'
  end.

(** [len(s)], an integer as in Python. *)
Definition len (s : str) : Z := Z.of_nat (List.length s).

(** [s[i]] for an index that is in range; every subscript of the source
    is guarded by a comparison with [len], see [conjunct_guard_in_range]. *)
Definition char_at (s : str) (i : Z) : Z := nth (Z.to_nat i) s 0.

(** [c.isspace()] for one code point: the characters that CPython's
    [Py_UNICODE_ISSPACE] accepts.  [str.strip()], [str.isspace()] and the
    regular-expression class [\s] all use this one test. *)
Definition isspace (c : Z) : bool :=
  (  (0x09 <=? c) && (c <=? 0x0D)
  || (0x1C <=? c) && (c <=? 0x20)
  || (c =? 0x85) || (c =? 0xA0) || (c =? 0x1680)
  || (0x2000 <=? c) && (c <=? 0x200A)
  || (c =? 0x2028) || (c =? 0x2029) || (c =? 0x202F)
  || (c =? 0x205F) || (c =? 0x3000))%bool.

(** The longest prefix whose characters satisfy [p], and what follows it. *)
Fixpoint take_while (p : Z -> bool) (s : str) : str :=
  match s with
  | [] => []
  | c :: s' => if p c then c :: take_while p s' else []
  end.

Fixpoint drop_while (p : Z -> bool) (s : str) : str :=
  match s with
  | [] => []
  | c :: s' => if p c then drop_while p s' else s
  end.

(** [s.strip()]: whitespace removed at the left end, then at the right. *)
Definition lstrip (s : str) : str := drop_while isspace s.
Definition rstrip (s : str) : str := rev (drop_while isspace (rev s)).
Definition strip (s : str) : str := rstrip (lstrip s).

(** [s.isspace()]: at least one character, and all of them whitespace. *)
Definition str_isspace (s : str) : bool :=
  match s with
  | [] => false
  | _ => forallb isspace s
  end.

(** ** The two tables *)

(** A dictionary display [{k1: v1, k2: v2, ...}] inserts its items from
    left to right, a later item replacing an earlier one with its key. *)
Definition dict_of (items : list (str * str)) : gmap str str :=
  foldl (fun m kv => <[kv.1 := kv.2]> m) ∅ items.

(** [d.get(k, default)]. *)
Definition dict_get (d : gmap str str) (k : str) (dflt : str) : str :=
  default dflt (d !! k).

(** The hasanta (virama) sign, U+09CD. *)
Definition virama : Z := 0x9CD.

Definition vowels : list (str * str) :=
  [ ([0x985], py "o"); ([0x986], py "a"); ([0x987], py "i");
    ([0x988], py "ee"); ([0x989], py "u"); ([0x98A], py "oo");
    ([0x98B], py "ri"); ([0x98F], py "e"); ([0x990], py "oi");
    ([0x993], py "o"); ([0x994], py "ou") ].

Definition vowel_markers : list (str * str) :=
  [ ([0x9BE], py "a"); ([0x9BF], py "i"); ([0x9C0], py "ee");
    ([0x9C1], py "u"); ([0x9C2], py "oo"); ([0x9C3], py "ri");
    ([0x9C7], py "e"); ([0x9C8], py "oi"); ([0x9CB], py "o");
    ([0x9CC], py "ou") ].

(** The three nukta letters are written in the source as a base letter
    followed by U+09BC: their keys are two code points long. *)
Definition consonants : list (str * str) :=
  [ ([0x995], py "k"); ([0x996], py "kh"); ([0x997], py "g");
    ([0x998], py "gh"); ([0x999], py "ng"); ([0x99A], py "ch");
    ([0x99B], py "chh"); ([0x99C], py "j"); ([0x99D], py "jh");
    ([0x99E], py "ny"); ([0x99F], py "t"); ([0x9A0], py "th");
    ([0x9A1], py "d"); ([0x9A2], py "dh"); ([0x9A3], py "n");
    ([0x9A4], py "t"); ([0x9A5], py "th"); ([0x9A6], py "d");
    ([0x9A7], py "dh"); ([0x9A8], py "n"); ([0x9AA], py "p");
    ([0x9AB], py "ph"); ([0x9AC], py "b"); ([0x9AD], py "bh");
    ([0x9AE], py "m"); ([0x9AF], py "y"); ([0x9B0], py "r");
    ([0x9B2], py "l"); ([0x9B6], py "sh"); ([0x9B7], py "sh");
    ([0x9B8], py "s"); ([0x9B9], py "h");
    ([0x9A1; 0x9BC], py "r"); ([0x9A2; 0x9BC], py "rh");
    ([0x9AF; 0x9BC], py "y");
    ([0x9CE], py "t"); ([0x982], py "ng"); ([0x983], py "h");
    ([virama], py "") ].

Definition numbers : list (str * str) :=
  [ ([0x9E6], py "0"); ([0x9E7], py "1"); ([0x9E8], py "2");
    ([0x9E9], py "3"); ([0x9EA], py "4"); ([0x9EB], py "5");
    ([0x9EC], py "6"); ([0x9ED], py "7"); ([0x9EE], py "8");
    ([0x9EF], py "9") ].

Definition punctuation : list (str * str) :=
  [ ([0x964], py "."); ([0x965], py "..") ].

Definition transliteration_items : list (str * str) :=
  vowels ++ vowel_markers ++ consonants ++ numbers ++ punctuation.

(** [_create_transliteration_map]. *)
Definition bengali_to_english_map : gmap str str :=
  dict_of transliteration_items.

Definition word_exception_items : list (str * str) :=
  [ ([0x9AA; 0x9A5; 0x9C7; 0x9B0], py "pother");
    ([0x9AA; 0x9BE; 0x981; 0x99A; 0x9BE; 0x9B2; 0x9C0], py "pachali");
    ([0x9A8; 0x9BF; 0x9B6; 0x9CD; 0x99A; 0x9BF; 0x9A8; 0x9CD; 0x9A6; 0x9BF;
      0x9AA; 0x9C1; 0x9B0], py "nishchindipur");
    ([0x997; 0x9CD; 0x9B0; 0x9BE; 0x9AE; 0x9C7; 0x9B0], py "gramer");
    ([0x98F; 0x995; 0x9C7; 0x9AC; 0x9BE; 0x9B0; 0x9C7], py "ekebare");
    ([0x989; 0x9A4; 0x9CD; 0x9A4; 0x9B0; 0x9AA; 0x9CD; 0x9B0; 0x9BE; 0x9A8;
      0x9CD; 0x9A4; 0x9C7], py "uttarprante");
    ([0x9AC; 0x9BE; 0x982; 0x9B2; 0x9BE], py "bangla");
    ([0x9AD; 0x9BE; 0x9B7; 0x9BE], py "bhasha");
    ([0x9B8; 0x9BE; 0x9B9; 0x9BF; 0x9A4; 0x9CD; 0x9AF], py "sahitya");
    ([0x995; 0x9AC; 0x9BF; 0x9A4; 0x9BE], py "kobita");
    ([0x997; 0x9B2; 0x9CD; 0x9AA], py "golpo");
    ([0x989; 0x9AA; 0x9A8; 0x9CD; 0x9AF; 0x9BE; 0x9B8], py "uponnyas");
    ([0x9B2; 0x9C7; 0x996; 0x995], py "lekhok");
    ([0x995; 0x9AC; 0x9BF], py "kobi") ].

(** [_create_word_exceptions]. *)
Definition word_exceptions : gmap str str :=
  dict_of word_exception_items.

(** The tables are constants: proofs go through the lemmas on them, and
    evaluation through [vm_compute]. *)
Opaque bengali_to_english_map word_exceptions.

(** ** The word transliterator *)

(** The method [transliterate_character], for a string [char] of any
    length: [self.bengali_to_english_map.get(char, char)]. *)
Definition transliterate_character_str (char : str) : str :=
  dict_get bengali_to_english_map char char.

(** The method on a string of one character, which is every call the
    loop of [transliterate_word] makes: [clean_word[i]] is the string of
    the one character at index [i]. *)
Definition transliterate_character (c : Z) : str :=
  transliterate_character_str [c].

(** The test of the [if] inside the loop:
    [i < len(clean_word) - 2 and clean_word[i + 1] == VIRAMA], the literal being U+09CD. *)
Definition conjunct_guard (clean_word : str) (i : Z) : bool :=
  (i <? len clean_word - 2) && (char_at clean_word (i + 1) =? virama).

(** One turn of the [while] loop of [transliterate_word]: the state is the
    index [i] and the accumulator [result]. *)
Definition loop_body (clean_word : str) (st : Z * str) : Z * str :=
  let '(i, result) := st in
  let char := char_at clean_word i in
  if conjunct_guard clean_word i then
    let first_consonant := transliterate_character char in
    let second_consonant := transliterate_character (char_at clean_word (i + 2)) in
    (i + 3, result ++ (first_consonant ++ second_consonant))
  else
    (i + 1, result ++ transliterate_character char).

(** [while i < len(clean_word): ...], returning [result] on exit.  The
    loop terminates because every turn moves [i] towards the length. *)
Equations? while_loop (clean_word : str) (st : Z * str) : str
  by wf (Z.to_nat (len clean_word - st.1)) lt :=
  while_loop clean_word st with Z_lt_dec st.1 (len clean_word) => {
    | left _ := while_loop clean_word (loop_body clean_word st);
    | right _ := st.2 }.
Proof.
  destruct (conjunct_guard _ _); simpl; lia.
Qed.

(** [transliterate_word]. *)
Definition transliterate_word (word : str) : str :=
  let clean_word := strip word in
  match word_exceptions !! clean_word with
  | Some v => v
  | None => while_loop clean_word (0, [])
  end.

(** Per-character substitution of a whole string. *)
Definition simple_substitution (s : str) : str :=
  flat_map transliterate_character s.

(** ** The text transliterator *)

Definition nonspace (c : Z) : bool := negb (isspace c).

(** [re.findall(r'\S+|\s+', text)]: from the current position the
    pattern matches the longest run of non-whitespace characters, or else
    the longest run of whitespace characters; the search resumes after
    the match. *)
Equations? findall (text : str) : list str by wf (List.length text) lt :=
  findall [] := [];
  findall (c :: rest) with isspace c => {
    | false := (c :: take_while nonspace rest) :: findall (drop_while nonspace rest);
    | true := (c :: take_while isspace rest) :: findall (drop_while isspace rest) }.
Proof.
  all: clear findall; simpl; apply Nat.lt_succ_r;
    induction rest as [|d rest IH]; simpl; [lia|];
    match goal with |- context [if ?b then _ else _] => destruct b end;
    simpl; lia.
Qed.

(** What the loop of [transliterate_text] appends for one token. *)
Definition transliterate_token (word : str) : str :=
  if str_isspace word then word else transliterate_word word.

(** [transliterate_text]. *)
Definition transliterate_text (text : str) : str :=
  let words := findall text in
  let transliterated_words := map transliterate_token words in
  concat transliterated_words.

(** ** Runs of whitespace and of other characters *)

(** A string that is empty or begins with a character outside [p]. *)
Definition starts_outside (p : Z → bool) (s : str) : Prop :=
  match s with
  | [] => True
  | c :: _ => p c = false
  end.

(** The class of characters a run is made of: whitespace or not. *)
Definition same_class (b : bool) : Z → bool :=
  if b then isspace else nonspace.

(** A run of class [b]: a non-empty string of characters of that class. *)
Definition is_run (b : bool) (p : str) : Prop :=
  p ≠ [] ∧ forallb (same_class b) p = true.

(** Runs whose classes alternate, the first one being of class [b]. *)
Inductive alternating : bool → list str → Prop :=
| alternating_nil b : alternating b []
| alternating_cons b p ps :
    is_run b p → alternating (negb b) ps → alternating b (p :: ps).

(** The token holds a character other than the virama. *)
Definition has_letter (tok : str) : bool :=
  existsb (λ c, negb (c =? virama)) tok.

(** ** Text extraction with its OCR fallback *)

Module Pdf.

(** The exceptions of a run: the two classes the extraction functions
    raise themselves, and whatever else a library raises.  All of them
    are subclasses of [Exception]. *)
Inductive exn :=
| FileNotFoundError (msg : string)
| Exception (msg : string)
| LibraryError (msg : string).

(** [str(e)]. *)
Definition exn_str (e : exn) : string :=
  match e with
  | FileNotFoundError msg | Exception msg | LibraryError msg => msg
  end.

Inductive outcome (A : Type) :=
| Returned (a : A)
| Raised (e : exn).
Arguments Returned {A} a.
Arguments Raised {A} e.

(** What [smart_extract_text_from_pdf] prints. *)
Inductive message :=
| RegularSuccessful
| SwitchingToOcr
| RegularFailed (e : exn)
| TryingOcr.

(** What an observer sees of a run: the calls of the two extraction
    strategies and the lines [smart_extract_text_from_pdf] prints, oldest
    first.  (The progress lines of the OCR strategy are left out.) *)
Inductive event :=
| CallRegular
| CallOcr
| Print (m : message).

(** The file system, the PDF library, the rasteriser and the OCR engine
    are outside the program.  A world fixes their answers for one path:
    whether the path exists; what opening the file and reading its pages
    gives, page by page; and, for the n-th run of the OCR strategy, what
    rasterising gives and what the engine reads on each image. *)
Record world := {
  pdf_path : string;
  path_exists : bool;
  pdf_pages : outcome (list (outcome str));
  ocr_pages : nat → outcome (list (outcome str))
}.

(** Computations that may raise and that extend the trace of events. *)
Definition M (A : Type) : Type := list event → outcome A * list event.

Definition ret {A} (a : A) : M A := λ tr, (Returned a, tr).

Definition raise {A} (e : exn) : M A := λ tr, (Raised e, tr).

Definition bind {A B} (m : M A) (k : A → M B) : M B :=
  λ tr,
    match m tr with
    | (Returned a, tr') => k a tr'
    | (Raised e, tr') => (Raised e, tr')
    end.

(** [try: body  except Exception as e: handler]. *)
Definition try_except {A} (body : M A) (handler : exn → M A) : M A :=
  λ tr,
    match body tr with
    | (Returned a, tr') => (Returned a, tr')
    | (Raised e, tr') => handler e tr'
    end.

(** The answer of a library call. *)
Definition lift {A} (o : outcome A) : M A := λ tr, (o, tr).

Definition log (ev : event) : M unit := λ tr, (Returned tt, tr ++ [ev]).

Definition print (m : message) : M unit := log (Print m).

Notation "x <- m ;; k" := (bind m (λ x, k))
  (at level 100, m at next level, right associativity).
Notation "m ;;; k" := (bind m (λ _, k))
  (at level 100, right associativity).

Definition is_ocr_call (ev : event) : bool :=
  match ev with CallOcr => true | _ => false end.

(** How many times the OCR strategy has run. *)
Definition ocr_calls (tr : list event) : nat :=
  List.length (List.filter is_ocr_call tr).

Definition get_ocr_calls : M nat := λ tr, (Returned (ocr_calls tr), tr).

(** The loops [for page in ...: text += page_text + sep] of the two
    strategies. *)
Fixpoint accumulate (sep : str) (pages : list (outcome str)) (text : str)
  : M str :=
  match pages with
  | [] => ret text
  | page :: pages' =>
      page_text <- lift page ;;
      accumulate sep pages' (text ++ page_text ++ sep)
  end.

(** [extract_text_from_pdf]. *)
Definition extract_text_from_pdf (w : world) : M str :=
  log CallRegular ;;;
  if negb (path_exists w) then
    raise (FileNotFoundError (String.append "PDF file not found: " (pdf_path w)))
  else
    try_except
      (pages <- lift (pdf_pages w) ;;
       accumulate [0x0A] pages [])
      (λ e, raise (Exception (String.append "Error reading PDF: " (exn_str e)))).

(** [extract_text_from_pdf_with_ocr]. *)
Definition extract_text_from_pdf_with_ocr (w : world) : M str :=
  n <- get_ocr_calls ;;
  log CallOcr ;;;
  if negb (path_exists w) then
    raise (FileNotFoundError (String.append "PDF file not found: " (pdf_path w)))
  else
    try_except
      (images <- lift (ocr_pages w n) ;;
       accumulate [0x0A; 0x0A] images [])
      (λ e, raise (Exception
                     (String.append "Error performing OCR on PDF: " (exn_str e)))).

(** How regular extraction ends, and how the n-th run of the OCR strategy
    ends (runs are counted from 0). *)
Definition regular_result (w : world) : outcome str :=
  (extract_text_from_pdf w []).1.

Definition ocr_result (w : world) (n : nat) : outcome str :=
  (extract_text_from_pdf_with_ocr w (replicate n CallOcr)).1.

Section Smart.

(** [c.isalnum()], a table of the Unicode database. *)
Variable isalnum : Z → bool.

(** The test [len(clean_text) > 50 and any(c.isalnum() for c in clean_text)]. *)
Definition meaningful (text : str) : bool :=
  let clean_text := strip text in
  (50 <? len clean_text) && existsb isalnum clean_text.

(** [smart_extract_text_from_pdf]. *)
Definition smart_extract_text_from_pdf (w : world) : M str :=
  try_except
    (text <- extract_text_from_pdf w ;;
     if meaningful text then
       print RegularSuccessful ;;; ret text
     else
       print SwitchingToOcr ;;; extract_text_from_pdf_with_ocr w)
    (λ e,
       print (RegularFailed e) ;;;
       print TryingOcr ;;;
       extract_text_from_pdf_with_ocr w).

(** A run of [smart_extract_text_from_pdf] from the empty trace. *)
Definition smart_run (w : world) : outcome str * list event :=
  smart_extract_text_from_pdf w [].

End Smart.

End Pdf.

(** [isalnum] on ASCII text. *)
Definition ascii_isalnum (c : Z) : bool :=
  ((0x30 <=? c) && (c <=? 0x39) || (0x41 <=? c) && (c <=? 0x5A)
   || (0x61 <=? c) && (c <=? 0x7A))%bool.

(** A scanned document: the text layer of its one page is ten characters
    long between blanks, the OCR engine fails on its first run and reads
    the page on its second. *)
Definition scanned_document : Pdf.world :=
  {| Pdf.pdf_path := "input/scan.pdf";
     Pdf.path_exists := true;
     Pdf.pdf_pages := Pdf.Returned [Pdf.Returned (py "  Page 1 / 2  ")];
     Pdf.ocr_pages := λ n,
       match n with
       | O => Pdf.Raised (Pdf.LibraryError "tesseract timed out")
       | _ => Pdf.Returned [Pdf.Returned (py "recognised text")]
       end |}.

(** The exception both strategies raise for a path that does not exist. *)
Definition not_found (w : Pdf.world) : Pdf.exn :=
  Pdf.FileNotFoundError (String.append "PDF file not found: " (Pdf.pdf_path w)).

(** A path at which there is no file. *)
Definition missing_document : Pdf.world :=
  {| Pdf.pdf_path := "input/none.pdf";
     Pdf.path_exists := false;
     Pdf.pdf_pages := Pdf.Raised (Pdf.LibraryError "No such file");
     Pdf.ocr_pages := λ _, Pdf.Raised (Pdf.LibraryError "No such file") |}.

(** A document of two pages without text, which the OCR engine reads. *)
Definition blank_document : Pdf.world :=
  {| Pdf.pdf_path := "input/blank.pdf";
     Pdf.path_exists := true;
     Pdf.pdf_pages := Pdf.Returned [Pdf.Returned []; Pdf.Returned [0x20]];
     Pdf.ocr_pages := λ _,
       Pdf.Returned [Pdf.Returned [0x995]; Pdf.Returned [0x996]] |}.

(** ** Rendering, and the whole pipeline *)

Module Render.

(** A [ParagraphStyle] as [create_transliterated_pdf] sets it up. *)
Record paragraph_style := {
  style_name : string;
  style_parent : string;
  fontSize : Z;
  spaceAfter : Z;
  alignment : Z
}.

Definition title_style : paragraph_style :=
  {| style_name := "CustomTitle"; style_parent := "Heading1";
     fontSize := 16; spaceAfter := 30; alignment := 1 |}.

Definition body_style : paragraph_style :=
  {| style_name := "CustomBody"; style_parent := "Normal";
     fontSize := 12; spaceAfter := 12; alignment := 0 |}.

(** The blocks of a story. *)
Inductive flowable :=
| Paragraph (text : str) (style : paragraph_style)
| Spacer (width height : Z).

(** [s.split(sep)] for a separator of one character: the pieces between
    the occurrences of [sep], empty pieces included. *)
Fixpoint split (sep : Z) (s : str) : list str :=
  match s with
  | [] => [[]]
  | c :: s' =>
      if c =? sep then [] :: split sep s'
      else match split sep s' with
           | piece :: pieces => (c :: piece) :: pieces
           | [] => [[c]]
           end
  end.

(** What [translate_pdf] prints, what [main] of the module prints, and
    what the command line prints. *)
Inductive line :=
| ReadingFrom (path : string)
| Transliterating
| CreatingAt (path : string)
| Completed
| ErrorDuring (e : Pdf.exn)
| MainCompleted
| MainInput (path : string)
| MainOutput (path : string)
| MainFileNotFound (e : Pdf.exn)
| MainPleaseCheck
| MainError (e : Pdf.exn)
| CliInputNotFound (path : string)
| CliProvideValidPath
| CliStarting
| CliInput (path : string)
| CliOutput (path : string)
| CliBlank
| CliCompleted
| CliSavedAt (path : string)
| CliError (e : Pdf.exn)
| TestHeader
| TestRule
| TestCase (i : nat) (bengali_text : str)
| TestResult (transliterated : str)
| TestCompleted.

(** What an observer sees of a run of the pipeline: what the extraction
    shows, the documents handed to the PDF writer, and the printed lines. *)
Inductive event :=
| Extracting (ev : Pdf.event)
| Build (output_path : string) (story : list flowable)
| MakeDirs (path : string)
| Say (l : line).

(** The layout library and the file system are outside the program: the
    library may refuse the markup of a paragraph when the paragraph is
    made, writing the document may fail, and so may the creation of a
    directory. *)
Record world := {
  markup_error : str → option Pdf.exn;
  build_result : string → list flowable → Pdf.outcome unit;
  makedirs_result : string → Pdf.outcome unit
}.

(** Computations that may raise and that extend the trace of events. *)
Definition R (A : Type) : Type := list event → Pdf.outcome A * list event.

Definition ret {A} (a : A) : R A := λ tr, (Pdf.Returned a, tr).

Definition raise {A} (e : Pdf.exn) : R A := λ tr, (Pdf.Raised e, tr).

Definition bind {A B} (m : R A) (k : A → R B) : R B :=
  λ tr,
    match m tr with
    | (Pdf.Returned a, tr') => k a tr'
    | (Pdf.Raised e, tr') => (Pdf.Raised e, tr')
    end.

Definition try_except {A} (body : R A) (handler : Pdf.exn → R A) : R A :=
  λ tr,
    match body tr with
    | (Pdf.Returned a, tr') => (Pdf.Returned a, tr')
    | (Pdf.Raised e, tr') => handler e tr'
    end.

Definition say (l : line) : R unit := λ tr, (Pdf.Returned tt, tr ++ [Say l]).

Local Notation "x <- m ;; k" := (bind m (λ x, k))
  (at level 100, m at next level, right associativity).
Local Notation "m ;;; k" := (bind m (λ _, k))
  (at level 100, right associativity).

(** [Paragraph(text, style)]. *)
Definition new_paragraph (rw : world) (text : str) (style : paragraph_style)
  : R flowable :=
  match markup_error rw text with
  | Some e => raise e
  | None => ret (Paragraph text style)
  end.

(** [doc.build(story)] for the document set up at [output_path]. *)
Definition doc_build (rw : world) (output_path : string)
    (story : list flowable) : R unit :=
  λ tr, (build_result rw output_path story, tr ++ [Build output_path story]).

(** [os.makedirs(path, exist_ok=True)] and [Path(path).mkdir(exist_ok=True)]. *)
Definition make_directory (rw : world) (path : string) : R unit :=
  λ tr, (makedirs_result rw path, tr ++ [MakeDirs path]).

(** The loop [for para in paragraphs] of [create_transliterated_pdf]. *)
Fixpoint append_paragraphs (rw : world) (paragraphs : list str)
    (story : list flowable) : R (list flowable) :=
  match paragraphs with
  | [] => ret story
  | para :: paragraphs' =>
      match strip para with
      | [] => append_paragraphs rw paragraphs' (story ++ [Spacer 1 12])
      | _ =>
          p <- new_paragraph rw (strip para) body_style ;;
          append_paragraphs rw paragraphs' (story ++ [p])
      end
  end.

(** [create_transliterated_pdf].  Setting up the document template and
    the two styles asks nothing of the file system; the calls that can
    fail are the making of a paragraph and [doc.build]. *)
Definition create_transliterated_pdf (rw : world) (text : str)
    (output_path : string) (title : str) : R unit :=
  try_except
    (title_paragraph <- new_paragraph rw title title_style ;;
     let story := [title_paragraph; Spacer 1 12] in
     let paragraphs := split 0x0A text in
     story <- append_paragraphs rw paragraphs story ;;
     doc_build rw output_path story)
    (λ e, raise (Pdf.Exception (String.append "Error creating PDF: " (Pdf.exn_str e)))).

(** A call of the extraction from the pipeline: its events are seen as
    events of the pipeline. *)
Definition run_extraction {A} (m : Pdf.M A) : R A :=
  λ tr, let '(o, tr') := m [] in (o, tr ++ map Extracting tr').

Section Pipeline.

Variable isalnum : Z → bool.

(** [translate_pdf]; the world [w] answers for [input_pdf_path]. *)
Definition translate_pdf (w : Pdf.world) (rw : world)
    (output_pdf_path : string) : R unit :=
  try_except
    (say (ReadingFrom (Pdf.pdf_path w)) ;;;
     bengali_text <- run_extraction (Pdf.smart_extract_text_from_pdf isalnum w) ;;
     say Transliterating ;;;
     let transliterated_text := transliterate_text bengali_text in
     say (CreatingAt output_pdf_path) ;;;
     create_transliterated_pdf rw transliterated_text output_pdf_path
       (py "Bengali to English Transliteration") ;;;
     say Completed)
    (λ e, say (ErrorDuring e) ;;; raise e).

(** The paths [main] fixes; the world [w] answers for [main_input_pdf]. *)
Definition main_input_pdf : string :=
  "/Users/ramjana/dev/poc_bengali_translator/input/bengali-female-script.pdf".
Definition main_output_dir : string :=
  "/Users/ramjana/dev/poc_bengali_translator/output".
Definition main_output_pdf : string :=
  "/Users/ramjana/dev/poc_bengali_translator/output/transliterated_output.pdf".

(** [main] of the module. *)
Definition main (w : Pdf.world) (rw : world) : R unit :=
  make_directory rw main_output_dir ;;;
  try_except
    (translate_pdf w rw main_output_pdf ;;;
     say MainCompleted ;;;
     say (MainInput main_input_pdf) ;;;
     say (MainOutput main_output_pdf))
    (λ e,
       match e with
       | Pdf.FileNotFoundError _ =>
           say (MainFileNotFound e) ;;; say MainPleaseCheck
       | _ => say (MainError e)
       end).

(** The trace of a run of [translate_pdf] up to the call of
    [create_transliterated_pdf]. *)
Definition before_creation (w : Pdf.world) (output_pdf_path : string)
  : list event :=
  Say (ReadingFrom (Pdf.pdf_path w))
    :: map Extracting (Pdf.smart_run isalnum w).2
    ++ [Say Transliterating; Say (CreatingAt output_pdf_path)].

End Pipeline.

(** The body of a story as the loop builds it when no paragraph is
    refused: one block for each line. *)
Definition block_of (para : str) : flowable :=
  match strip para with
  | [] => Spacer 1 12
  | _ => Paragraph (strip para) body_style
  end.

Definition story_of (title text : str) : list flowable :=
  [Paragraph title title_style; Spacer 1 12] ++ map block_of (split 0x0A text).

(** The text of a block; a spacer has none. *)
Definition block_text (b : flowable) : str :=
  match b with
  | Paragraph text _ => text
  | Spacer _ _ => []
  end.

(** A layout library that accepts every paragraph and writes every
    document. *)
Definition accepting : world :=
  {| markup_error := λ _, None;
     build_result := λ _ _, Pdf.Returned tt;
     makedirs_result := λ _, Pdf.Returned tt |}.

(** A layout library that refuses the paragraphs that hold the
    character [<], as one that reads it as the start of a tag it cannot
    close, and writes every document. *)
Definition strict : world :=
  {| markup_error := λ text,
       if existsb (Z.eqb 0x3C) text
       then Some (Pdf.LibraryError "unclosed tag")
       else None;
     build_result := λ _ _, Pdf.Returned tt;
     makedirs_result := λ _, Pdf.Returned tt |}.

(** The first refusal the library opposes to a list of paragraph texts,
    and to the paragraphs of a document: its title, then its lines that
    are not blank, stripped. *)
Fixpoint first_refusal (rw : world) (texts : list str) : option Pdf.exn :=
  match texts with
  | [] => None
  | text :: texts' =>
      match markup_error rw text with
      | Some e => Some e
      | None => first_refusal rw texts'
      end
  end.

Definition nonblank_lines (text : str) : list str :=
  List.filter (λ para, negb (bool_decide (para = [])))
              (map strip (split 0x0A text)).

Definition refusal (rw : world) (title text : str) : option Pdf.exn :=
  first_refusal rw (title :: nonblank_lines text).

(** The exception [create_transliterated_pdf] raises for the cause [e]. *)
Definition creation_error (e : Pdf.exn) : Pdf.exn :=
  Pdf.Exception (String.append "Error creating PDF: " (Pdf.exn_str e)).

(** The title [translate_pdf] gives to the document. *)
Definition document_title : str := py "Bengali to English Transliteration".

Definition is_build (ev : event) : bool :=
  match ev with Build _ _ => true | _ => false end.

(** What a run of [translate_pdf] adds to the trace once the extraction
    has returned [text], and how it ends. *)
Definition after_extraction (rw : world) (output_pdf_path : string)
    (text : str) : Pdf.outcome unit * list event :=
  let story := story_of document_title (transliterate_text text) in
  match refusal rw document_title (transliterate_text text) with
  | Some e =>
      (Pdf.Raised (creation_error e), [Say (ErrorDuring (creation_error e))])
  | None =>
      match build_result rw output_pdf_path story with
      | Pdf.Returned _ =>
          (Pdf.Returned tt, [Build output_pdf_path story; Say Completed])
      | Pdf.Raised e =>
          (Pdf.Raised (creation_error e),
           [Build output_pdf_path story; Say (ErrorDuring (creation_error e))])
      end
  end.

(** What [main] of the module prints after [translate_pdf]. *)
Definition main_report (o : Pdf.outcome unit) : list event :=
  match o with
  | Pdf.Returned _ =>
      [Say MainCompleted; Say (MainInput main_input_pdf);
       Say (MainOutput main_output_pdf)]
  | Pdf.Raised (Pdf.FileNotFoundError msg) =>
      [Say (MainFileNotFound (Pdf.FileNotFoundError msg)); Say MainPleaseCheck]
  | Pdf.Raised e => [Say (MainError e)]
  end.

Definition is_say (ev : event) : bool :=
  match ev with Say _ => true | _ => false end.

Definition is_extracting (ev : event) : bool :=
  match ev with Extracting _ => true | _ => false end.

End Render.

(** ** The command line *)

Module Cli.

Import Render.

Local Notation "x <- m ;; k" := (Render.bind m (λ x, k))
  (at level 100, m at next level, right associativity).
Local Notation "m ;;; k" := (Render.bind m (λ _, k))
  (at level 100, right associativity).

Definition output_dir : string :=
  "/Users/ramjana/dev/poc_bengali_translator/output".

Definition test_cases : list str :=
  [ [0x9AA; 0x9A5; 0x9C7; 0x9B0; 0x20; 0x9AA; 0x9BE; 0x981; 0x99A; 0x9BE;
     0x9B2; 0x9C0];
    [0x9A8; 0x9BF; 0x9B6; 0x9CD; 0x99A; 0x9BF; 0x9A8; 0x9CD; 0x9A6; 0x9BF;
     0x9AA; 0x9C1; 0x9B0; 0x20; 0x997; 0x9CD; 0x9B0; 0x9BE; 0x9AE; 0x9C7;
     0x9B0; 0x20; 0x98F; 0x995; 0x9C7; 0x9AC; 0x9BE; 0x9B0; 0x9C7; 0x20;
     0x989; 0x9A4; 0x9CD; 0x9A4; 0x9B0; 0x9AA; 0x9CD; 0x9B0; 0x9BE; 0x9A8;
     0x9CD; 0x9A4; 0x9C7];
    [0x9AC; 0x9BE; 0x982; 0x9B2; 0x9BE; 0x20; 0x9AD; 0x9BE; 0x9B7; 0x9BE;
     0x20; 0x985; 0x9A4; 0x9CD; 0x9AF; 0x9A8; 0x9CD; 0x9A4; 0x20; 0x9B8;
     0x9C1; 0x9A8; 0x9CD; 0x9A6; 0x9B0];
    [0x9B0; 0x9AC; 0x9C0; 0x9A8; 0x9CD; 0x9A6; 0x9CD; 0x9B0; 0x9A8; 0x9BE;
     0x9A5; 0x20; 0x9A0; 0x9BE; 0x995; 0x9C1; 0x9B0; 0x20; 0x9AC; 0x9BF;
     0x9B6; 0x9CD; 0x9AC; 0x995; 0x9AC; 0x9BF] ].

(** The loop [for i, bengali_text in enumerate(test_cases, 1)]. *)
Fixpoint print_test_cases (i : nat) (cases : list str) : R unit :=
  match cases with
  | [] => Render.ret tt
  | bengali_text :: cases' =>
      let transliterated := transliterate_text bengali_text in
      say (TestCase i bengali_text) ;;;
      say (TestResult transliterated) ;;;
      say CliBlank ;;;
      print_test_cases (S i) cases'
  end.

(** [run_quick_test]. *)
Definition run_quick_test : R unit :=
  say TestHeader ;;;
  say TestRule ;;;
  print_test_cases 1 test_cases ;;;
  say TestCompleted.

Section Main.

Variable isalnum : Z → bool.

(** [Path(p).stem], of the path library. *)
Variable stem : string → string.

(** [output_dir / f"{input_path.stem}_transliterated.pdf"], as a string;
    a stem holds no separator. *)
Definition default_output (input_pdf : string) : string :=
  String.append output_dir
    (String.append "/" (String.append (stem input_pdf) "_transliterated.pdf")).

(** [main] of the command line, after the arguments are parsed: the world
    [w] answers for [args.input_pdf]; [output_pdf] is [None] when the
    argument is left out; the result is what [main] returns. *)
Definition main (w : Pdf.world) (rw : Render.world)
    (output_pdf : option string) (test : bool) : R (option Z) :=
  if test then
    run_quick_test ;;; Render.ret None
  else
    output_pdf <-
      match output_pdf with
      | None =>
          make_directory rw output_dir ;;;
          Render.ret (default_output (Pdf.pdf_path w))
      | Some path => Render.ret path
      end ;;
    if negb (Pdf.path_exists w) then
      say (CliInputNotFound (Pdf.pdf_path w)) ;;;
      say CliProvideValidPath ;;;
      Render.ret (Some 1)
    else
      returned <-
        Render.try_except
          (say CliStarting ;;;
           say (CliInput (Pdf.pdf_path w)) ;;;
           say (CliOutput output_pdf) ;;;
           say CliBlank ;;;
           translate_pdf isalnum w rw output_pdf ;;;
           say CliCompleted ;;;
           say (CliSavedAt output_pdf) ;;;
           Render.ret None)
          (λ e, say (CliError e) ;;; Render.ret (Some 1)) ;;
      match returned with
      | Some status => Render.ret (Some status)
      | None => Render.ret (Some 0)
      end.

(** The output path the command line works with. *)
Definition cli_output (w : Pdf.world) (output_pdf : option string) : string :=
  match output_pdf with
  | Some path => path
  | None => default_output (Pdf.pdf_path w)
  end.

(** What the command line does about the output directory. *)
Definition cli_directory (rw : Render.world) (output_pdf : option string)
  : Pdf.outcome unit * list Render.event :=
  match output_pdf with
  | Some _ => (Pdf.Returned tt, [])
  | None => (makedirs_result rw output_dir, [MakeDirs output_dir])
  end.

End Main.

End Cli.

(** The states the loop of [transliterate_word] goes through on a word:
    the first one, and the one after a turn taken from a state whose index
    is below the length. *)
Inductive reachable (clean_word : str) : Z * str → Prop :=
| reachable_start : reachable clean_word (0, [])
| reachable_turn st :
    reachable clean_word st → st.1 < len clean_word →
    reachable clean_word (loop_body clean_word st).

(** The characters before the first [stop]. *)
Fixpoint take_until (stop : ascii) (l : list ascii) : list ascii :=
  match l with
  | [] => []
  | a :: l' => if Ascii.eqb a stop then [] else a :: take_until stop l'
  end.

(** [l.split(sep)], the piece under way being [piece], reversed. *)
Fixpoint split_on (sep : ascii) (l piece : list ascii)
  : list (list ascii) :=
  match l with
  | [] => [rev piece]
  | a :: l' =>
      if Ascii.eqb a sep then rev piece :: split_on sep l' []
      else split_on sep l' (a :: piece)
  end.

(** [PurePosixPath(path).name]: the components of a path are the pieces
    between its slashes that are neither empty nor a lone dot, and the
    name is the last of them, the empty string when there is none. *)
Definition path_name (path : string) : list ascii :=
  List.last
    (List.filter
       (λ piece : list ascii,
          match piece with
          | [] => false
          | [a] => negb (Ascii.eqb a ".")
          | _ => true
          end)
       (split_on "/" (list_ascii_of_string path) []))
    [].

(** [PurePosixPath(path).stem]: with [i = name.rfind('.')], the stem is
    [name[:i]] when [0 < i < len(name) - 1] and [name] otherwise.  Below
    [k] is the number of characters after the last dot, so that
    [i = n - k - 1], and [k = n] when the name holds no dot. *)
Definition path_stem (path : string) : string :=
  let name := path_name path in
  let n := List.length name in
  let k := List.length (take_until "." (rev name)) in
  if ((k <? n) && (0 <? k) && (k + 1 <? n))%nat
  then string_of_list_ascii (firstn (n - k - 1) name)
  else string_of_list_ascii name.

(** The nukta sign, U+09BC. *)
Definition nukta : Z := 0x9BC.

(** The first failure among the answers of the pages, and what makes a
    strategy fail for a path that exists: the failure of the library
    before any page is read, or the first page that fails. *)
Fixpoint first_raised (pages : list (Pdf.outcome str)) : option Pdf.exn :=
  match pages with
  | [] => None
  | Pdf.Returned _ :: pages' => first_raised pages'
  | Pdf.Raised e :: _ => Some e
  end.

Definition library_failure (o : Pdf.outcome (list (Pdf.outcome str)))
  : option Pdf.exn :=
  match o with
  | Pdf.Raised e => Some e
  | Pdf.Returned pages => first_raised pages
  end.

(** * Properties *)

(** ** Stripping *)

Lemma drop_while_length p s :
  (List.length (drop_while p s) <= List.length s)%nat.
Proof.
  induction s as [|c s IH]; simpl; [lia|].
  destruct (p c); simpl; lia.
Qed.

Lemma take_drop_while p s : take_while p s ++ drop_while p s = s.
Proof.
  induction s as [|c s IH]; simpl; [done|].
  destruct (p c); simpl; [by rewrite IH | done].
Qed.

Lemma drop_while_all p s : forallb p s = true → drop_while p s = [].
Proof.
  induction s as [|c s IH]; simpl; [done|].
  destruct (p c); simpl; [exact IH | done].
Qed.

Lemma drop_while_starts_outside p s : starts_outside p (drop_while p s).
Proof.
  induction s as [|c s IH]; simpl; [done|].
  destruct (p c) eqn:E; simpl; done.
Qed.

Lemma drop_while_fixed p s : starts_outside p s → drop_while p s = s.
Proof. destruct s as [|c s]; simpl; [done|]. by intros ->. Qed.

Lemma take_while_fixed p s : starts_outside p s → take_while p s = [].
Proof. destruct s as [|c s]; simpl; [done|]. by intros ->. Qed.

Lemma rstrip_prefix s : ∃ tail, s = rstrip s ++ tail.
Proof.
  exists (rev (take_while isspace (rev s))). unfold rstrip.
  rewrite <- rev_app_distr, take_drop_while. by rewrite rev_involutive.
Qed.

Lemma rstrip_starts_outside s :
  starts_outside isspace s → starts_outside isspace (rstrip s).
Proof.
  intros Hs. destruct (rstrip_prefix s) as [tail Htail].
  destruct (rstrip s) as [|c u]; [done|].
  rewrite Htail in Hs. exact Hs.
Qed.

Lemma rstrip_idempotent s : rstrip (rstrip s) = rstrip s.
Proof.
  unfold rstrip. rewrite rev_involutive.
  by rewrite (drop_while_fixed _ _ (drop_while_starts_outside _ _)).
Qed.

Lemma strip_idempotent s : strip (strip s) = strip s.
Proof.
  unfold strip, lstrip.
  rewrite (drop_while_fixed isspace (rstrip _)).
  - apply rstrip_idempotent.
  - apply rstrip_starts_outside, drop_while_starts_outside.
Qed.

Lemma strip_whitespace s : forallb isspace s = true → strip s = [].
Proof.
  intros H. unfold strip, lstrip. by rewrite (drop_while_all _ _ H).
Qed.

Lemma forallb_rev (p : Z → bool) s : forallb p (rev s) = forallb p s.
Proof.
  induction s as [|c s IH]; simpl; [done|].
  rewrite forallb_app, IH. simpl. destruct (p c), (forallb p s); done.
Qed.

Lemma forallb_nonspace_starts s :
  forallb nonspace s = true → starts_outside isspace s.
Proof.
  destruct s as [|c s]; simpl; [done|]. unfold nonspace.
  destruct (isspace c); simpl; done.
Qed.

Lemma strip_nonspace s : forallb nonspace s = true → strip s = s.
Proof.
  intros H. unfold strip, lstrip, rstrip.
  rewrite (drop_while_fixed _ s) by by apply forallb_nonspace_starts.
  rewrite drop_while_fixed.
  - apply rev_involutive.
  - apply forallb_nonspace_starts. by rewrite forallb_rev.
Qed.

(** ** The tables *)

Lemma foldl_insert_lookup (items : list (str * str)) (m : gmap str str) k v :
  foldl (λ m kv, <[kv.1 := kv.2]> m) m items !! k = Some v →
  (k, v) ∈ items ∨ m !! k = Some v.
Proof.
  revert m. induction items as [|[k' v'] items IH]; intros m H; simpl in *.
  - by right.
  - destruct (IH _ H) as [Hin|Hm].
    + left. by apply list_elem_of_further.
    + rewrite lookup_insert in Hm. case_decide as Hk.
      * injection Hm as <-. subst k'. left. apply list_elem_of_here.
      * by right.
Qed.

Lemma dict_of_lookup items k v : dict_of items !! k = Some v → (k, v) ∈ items.
Proof.
  intros H. destruct (foldl_insert_lookup _ _ _ _ H) as [?|Hm]; [done|].
  by rewrite lookup_empty in Hm.
Qed.

(** A property checked on every item of a display holds of every entry
    of the dictionary. *)
Lemma dict_of_forallb (P : str * str → bool) items k v :
  forallb P items = true → dict_of items !! k = Some v → P (k, v) = true.
Proof.
  intros Hall Hk. apply dict_of_lookup in Hk.
  rewrite forallb_forall in Hall. apply Hall. by apply list_elem_of_In.
Qed.

Lemma bengali_to_english_map_forallb (P : str * str → bool) k v :
  forallb P transliteration_items = true →
  bengali_to_english_map !! k = Some v → P (k, v) = true.
Proof. apply dict_of_forallb. Qed.

Lemma word_exceptions_forallb (P : str * str → bool) k v :
  forallb P word_exception_items = true →
  word_exceptions !! k = Some v → P (k, v) = true.
Proof. apply dict_of_forallb. Qed.

Lemma transliterate_character_virama : transliterate_character virama = [].
Proof. vm_compute. reflexivity. Qed.

Lemma transliterate_character_unmapped c :
  bengali_to_english_map !! [c] = None → transliterate_character c = [c].
Proof.
  intros H.
  unfold transliterate_character, transliterate_character_str, dict_get.
  by rewrite H.
Qed.

Lemma transliterate_character_mapped c v :
  bengali_to_english_map !! [c] = Some v → transliterate_character c = v.
Proof.
  intros H.
  unfold transliterate_character, transliterate_character_str, dict_get.
  by rewrite H.
Qed.

(** Only the virama is transliterated to the empty string. *)
Lemma transliterate_character_nil c :
  transliterate_character c = [] → c = virama.
Proof.
  unfold transliterate_character, transliterate_character_str, dict_get.
  destruct (bengali_to_english_map !! [c]) as [v|] eqn:E; simpl; [|done].
  intros ->.
  pose proof (bengali_to_english_map_forallb
    (λ kv, match kv.2 with [] => bool_decide (kv.1 = [virama]) | _ => true end)
    _ _ eq_refl E) as H.
  simpl in H. apply bool_decide_eq_true in H. congruence.
Qed.

(** No transliteration of a non-whitespace character holds whitespace. *)
Lemma transliterate_character_nonspace c :
  isspace c = false → forallb nonspace (transliterate_character c) = true.
Proof.
  intros Hc. unfold transliterate_character, transliterate_character_str, dict_get.
  destruct (bengali_to_english_map !! [c]) as [v|] eqn:E; simpl.
  - exact (bengali_to_english_map_forallb (λ kv, forallb nonspace kv.2)
             _ _ eq_refl E).
  - unfold nonspace. by rewrite Hc.
Qed.

(** Every key of the exception table has three characters or more, and
    every value is non-empty and free of whitespace. *)
Lemma word_exceptions_key_length k v :
  word_exceptions !! k = Some v → 3 <= len k.
Proof.
  intros E.
  pose proof (word_exceptions_forallb (λ kv, 3 <=? len kv.1) _ _ eq_refl E).
  simpl in *. lia.
Qed.

Lemma word_exceptions_value k v :
  word_exceptions !! k = Some v → v ≠ [] ∧ forallb nonspace v = true.
Proof.
  intros E.
  pose proof (word_exceptions_forallb
    (λ kv, negb (bool_decide (kv.2 = [])) && forallb nonspace kv.2)
    _ _ eq_refl E) as H.
  simpl in H. apply andb_prop in H as [H1 H2]. split; [|done].
  apply negb_true_iff, bool_decide_eq_false in H1. done.
Qed.

(** ** The scanning loop *)

Lemma while_loop_exit clean_word st :
  len clean_word <= st.1 → while_loop clean_word st = st.2.
Proof.
  intros H. rewrite while_loop_equation_1.
  destruct (Z_lt_dec _ _); simpl; [lia | done].
Qed.

Lemma while_loop_turn clean_word st :
  st.1 < len clean_word →
  while_loop clean_word st = while_loop clean_word (loop_body clean_word st).
Proof.
  intros H. rewrite while_loop_equation_1.
  destruct (Z_lt_dec _ _); simpl; [done | lia].
Qed.

(** The two branches of the loop body. *)
Lemma loop_body_conjunct clean_word i result :
  conjunct_guard clean_word i = true →
  loop_body clean_word (i, result) =
    (i + 3, result ++ transliterate_character (char_at clean_word i)
                   ++ transliterate_character (char_at clean_word (i + 2))).
Proof. intros H. unfold loop_body. by rewrite H. Qed.

Lemma loop_body_simple clean_word i result :
  conjunct_guard clean_word i = false →
  loop_body clean_word (i, result) =
    (i + 1, result ++ transliterate_character (char_at clean_word i)).
Proof. intros H. unfold loop_body. by rewrite H. Qed.

(** The guard holds exactly when two more characters follow the one at
    [i] and the next one is the virama. *)
Lemma conjunct_guard_true clean_word i :
  conjunct_guard clean_word i = true ↔
  i + 2 < len clean_word ∧ char_at clean_word (i + 1) = virama.
Proof.
  unfold conjunct_guard. rewrite andb_true_iff, Z.ltb_lt, Z.eqb_eq. lia.
Qed.

(** Inside the loop every subscript is within the string. *)
Lemma conjunct_guard_in_range clean_word i :
  0 <= i → conjunct_guard clean_word i = true →
  is_Some (clean_word !! Z.to_nat i) ∧
  is_Some (clean_word !! Z.to_nat (i + 1)) ∧
  is_Some (clean_word !! Z.to_nat (i + 2)).
Proof.
  intros Hi [Hlen _]%conjunct_guard_true. unfold len in Hlen.
  repeat split; apply lookup_lt_is_Some; lia.
Qed.

Lemma conjunct_guard_near_end clean_word i :
  len clean_word - 2 <= i → conjunct_guard clean_word i = false.
Proof.
  intros H. unfold conjunct_guard.
  destruct (Z.ltb_spec i (len clean_word - 2)); [lia | done].
Qed.

Lemma drop_char_at (s : str) i :
  0 <= i < len s →
  drop (Z.to_nat i) s = char_at s i :: drop (Z.to_nat (i + 1)) s.
Proof.
  intros H. unfold len in H.
  replace (Z.to_nat (i + 1)) with (S (Z.to_nat i)) by lia.
  apply drop_S. unfold char_at. rewrite nth_lookup.
  destruct (lookup_lt_is_Some_2 s (Z.to_nat i)) as [x ->]; [lia | done].
Qed.

(** Since the virama is transliterated to nothing, the loop yields the
    per-character substitution of what is left of the word, whichever
    branches it takes. *)
Lemma while_loop_from clean_word i result :
  0 <= i →
  while_loop clean_word (i, result) =
    result ++ simple_substitution (drop (Z.to_nat i) clean_word).
Proof.
  remember (Z.to_nat (len clean_word - i)) as n eqn:Hn.
  revert i result Hn.
  induction n as [n IH] using lt_wf_ind. intros i result Hn Hi.
  destruct (Z_lt_dec i (len clean_word)) as [Hlt|Hge].
  - rewrite while_loop_turn by done.
    destruct (conjunct_guard clean_word i) eqn:Hg.
    + rewrite loop_body_conjunct by done.
      apply conjunct_guard_true in Hg as [Hlen Hv].
      rewrite (IH (Z.to_nat (len clean_word - (i + 3)))) by lia.
      rewrite (drop_char_at _ i), (drop_char_at _ (i + 1)) by lia.
      rewrite (drop_char_at _ (i + 1 + 1)) by lia.
      replace (i + 1 + 1) with (i + 2) by lia.
      replace (i + 2 + 1) with (i + 3) by lia.
      unfold simple_substitution. simpl.
      rewrite Hv, transliterate_character_virama. simpl.
      by rewrite <- !app_assoc.
    + rewrite loop_body_simple by done.
      rewrite (IH (Z.to_nat (len clean_word - (i + 1)))) by lia.
      rewrite (drop_char_at _ i) by lia.
      unfold simple_substitution. simpl. by rewrite <- app_assoc.
  - rewrite while_loop_exit by (simpl; lia). simpl.
    rewrite drop_ge by (unfold len in Hge; lia).
    by rewrite app_nil_r.
Qed.

Lemma while_loop_simple_substitution clean_word :
  while_loop clean_word (0, []) = simple_substitution clean_word.
Proof. by rewrite while_loop_from. Qed.

Lemma simple_substitution_app s t :
  simple_substitution (s ++ t) = simple_substitution s ++ simple_substitution t.
Proof. apply flat_map_app. Qed.

(** [transliterate_word], branch by branch. *)
Lemma transliterate_word_exception word v :
  word_exceptions !! strip word = Some v → transliterate_word word = v.
Proof. intros H. unfold transliterate_word. by rewrite H. Qed.

Lemma transliterate_word_scan word :
  word_exceptions !! strip word = None →
  transliterate_word word = while_loop (strip word) (0, []).
Proof. intros H. unfold transliterate_word. by rewrite H. Qed.

Lemma len_app (s t : str) : len (s ++ t) = len s + len t.
Proof. unfold len. rewrite length_app. lia. Qed.

Lemma char_at_app_r (s t : str) k :
  0 <= k → char_at (s ++ t) (len s + k) = char_at t k.
Proof.
  intros Hk. unfold char_at, len.
  replace (Z.to_nat (Z.of_nat (List.length s) + k))
    with (List.length s + Z.to_nat k)%nat by lia.
  apply app_nth2_plus.
Qed.

(** ** The word transliterator *)

(** C1.  A stripped word [X, virama, Y] outside the exception table, with
    X and Y mapped to [vx] and [vy], is transliterated to [vx ++ vy].
    In any word, when the scan stands at [i <= len - 3] and the character
    at [i + 1] is the virama, one turn of the loop appends the mapping of
    the character at [i] directly followed by that of the character at
    [i + 2], and moves the index to [i + 3]. *)
Theorem conjunct_cluster :
  (∀ (w : str) (X Y : Z) (vx vy : str),
     strip w = [X; virama; Y] →
     word_exceptions !! strip w = None →
     bengali_to_english_map !! [X] = Some vx →
     bengali_to_english_map !! [Y] = Some vy →
     transliterate_word w = vx ++ vy) ∧
  (∀ (clean_word : str) (i : Z) (result : str),
     0 <= i <= len clean_word - 3 →
     char_at clean_word (i + 1) = virama →
     conjunct_guard clean_word i = true ∧
     loop_body clean_word (i, result) =
       (i + 3, result ++ transliterate_character (char_at clean_word i)
                      ++ transliterate_character (char_at clean_word (i + 2)))).
Proof.
  split.
  - intros w X Y vx vy Hw Hexc HX HY.
    rewrite transliterate_word_scan, Hw by done.
    rewrite while_loop_turn by (simpl; unfold len; simpl; lia).
    rewrite loop_body_conjunct by (apply conjunct_guard_true; done).
    rewrite while_loop_exit by (simpl; unfold len; simpl; lia).
    simpl. unfold char_at. simpl.
    by rewrite (transliterate_character_mapped _ _ HX),
               (transliterate_character_mapped _ _ HY).
  - intros clean_word i result Hi Hv.
    assert (conjunct_guard clean_word i = true) as Hg
      by (apply conjunct_guard_true; split; [lia | done]).
    split; [done | by apply loop_body_conjunct].
Qed.

Lemma conjunct_cluster_witness :
  transliterate_word [0x20; 0x995; 0x9CD; 0x9A4; 0x0A] = py "kt" ∧
  loop_body [0x9B8; 0x995; 0x9CD; 0x9A4] (1, py "s") = (4, py "skt").
Proof.
  split.
  - apply (proj1 conjunct_cluster _ 0x995 0x9A4 (py "k") (py "t"));
      vm_compute; reflexivity.
  - apply (proj2 conjunct_cluster [0x9B8; 0x995; 0x9CD; 0x9A4] 1 (py "s"));
      vm_compute; [split; discriminate | reflexivity].
Defined.

(** The entries of the exception table are the items of its display, and
    no others. *)
Lemma word_exceptions_items k v :
  word_exceptions !! k = Some v ↔ In (k, v) word_exception_items.
Proof.
  split.
  - intros H. apply list_elem_of_In. by apply dict_of_lookup.
  - intros Hin.
    assert (forallb (λ kv : str * str,
              bool_decide (word_exceptions !! kv.1 = Some kv.2))
              word_exception_items = true) as Hall
      by (vm_compute; reflexivity).
    rewrite forallb_forall in Hall. specialize (Hall _ Hin). simpl in Hall.
    by apply bool_decide_eq_true in Hall.
Qed.

(** C2.  A word whose stripped form is a key of the exception table is
    transliterated to the table's value, whatever the scan would give.
    The keys are the fourteen strings of the display and nothing else, and
    a word whose stripped form is not one of them, letter for letter, is
    not looked up under any other form: it is transliterated by the scan,
    character by character.  The two literal scenarios of the
    specification hold, and a key followed by a danda goes through the
    scan. *)
Theorem exception_precedence :
  (∀ (w v : str),
     word_exceptions !! strip w = Some v → transliterate_word w = v) ∧
  (∀ (k v : str),
     word_exceptions !! k = Some v ↔ In (k, v) word_exception_items) ∧
  (∀ (w : str),
     (∀ v, ¬ In (strip w, v) word_exception_items) →
     transliterate_word w = flat_map transliterate_character (strip w)) ∧
  transliterate_word [0x9AA; 0x9A5; 0x9C7; 0x9B0] = py "pother" ∧
  transliterate_word [0x9AC; 0x9BE; 0x982; 0x9B2; 0x9BE] = py "bangla" ∧
  (word_exceptions !! [0x9AA; 0x9A5; 0x9C7; 0x9B0; 0x964] = None ∧
   transliterate_word [0x9AA; 0x9A5; 0x9C7; 0x9B0; 0x964] = py "pther.").
Proof.
  split; [exact transliterate_word_exception|].
  split; [exact word_exceptions_items|]. split.
  - intros w Hmiss.
    assert (word_exceptions !! strip w = None) as Hnone.
    { destruct (word_exceptions !! strip w) as [v|] eqn:E; [|done].
      apply word_exceptions_items in E. by destruct (Hmiss v). }
    rewrite transliterate_word_scan by done.
    apply while_loop_simple_substitution.
  - repeat split; vm_compute; reflexivity.
Qed.

Lemma exception_precedence_witness :
  transliterate_word [0x20; 0x995; 0x9AC; 0x9BF; 0x0A] = py "kobi" ∧
  transliterate_word [0x20; 0x995; 0x9AC; 0x9BF; 0x965; 0x0A] = py "kbi..".
Proof.
  split.
  - apply (proj1 exception_precedence). vm_compute. reflexivity.
  - apply (proj1 (proj2 (proj2 exception_precedence))).
    intros v Hin. vm_compute in Hin.
    repeat (destruct Hin as [Hin|Hin]; [discriminate Hin|]). destruct Hin.
Defined.

(** C5, as stated, fails on a whitespace character: the space is not a
    key of the character map, and the one-character word made of it is
    transliterated to the empty string. *)
Lemma identity_fallback_counterexample :
  bengali_to_english_map !! [0x20] = None ∧
  transliterate_word [0x20] ≠ [0x20].
Proof. split; vm_compute; [reflexivity | discriminate]. Qed.

(** C5, amended.  For a character that is neither a key of the character
    map nor whitespace, the one-character word is returned unchanged;
    a one-character word made of a whitespace character gives the empty
    string. *)
Theorem identity_fallback (c : Z) :
  bengali_to_english_map !! [c] = None →
  (isspace c = false → transliterate_word [c] = [c]) ∧
  (isspace c = true → transliterate_word [c] = []).
Proof.
  intros Hc.
  assert (∀ s, (len s < 3) → word_exceptions !! s = None) as Hshort.
  { intros s Hs. destruct (word_exceptions !! s) as [v|] eqn:E; [|done].
    apply word_exceptions_key_length in E. lia. }
  split; intros Hsp.
  - assert (strip [c] = [c]) as Hstrip
      by (apply strip_nonspace; simpl; unfold nonspace; by rewrite Hsp).
    rewrite transliterate_word_scan; rewrite Hstrip.
    + rewrite while_loop_simple_substitution. unfold simple_substitution.
      simpl. rewrite app_nil_r. by apply transliterate_character_unmapped.
    + apply Hshort. unfold len; simpl; lia.
  - assert (strip [c] = []) as Hstrip
      by (apply strip_whitespace; simpl; by rewrite Hsp).
    rewrite transliterate_word_scan; rewrite Hstrip.
    + by rewrite while_loop_simple_substitution.
    + apply Hshort. unfold len; simpl; lia.
Qed.

Lemma identity_fallback_witness :
  transliterate_word [0x41] = [0x41] ∧ transliterate_word [0x09] = [].
Proof.
  split.
  - apply (proj1 (identity_fallback 0x41 eq_refl)). reflexivity.
  - apply (proj2 (identity_fallback 0x09 eq_refl)). reflexivity.
Defined.

(** Whitespace around a word does not survive [strip]. *)
Lemma drop_while_app_all p s t :
  forallb p s = true → drop_while p (s ++ t) = drop_while p t.
Proof.
  induction s as [|c s IH]; simpl; [done|].
  destruct (p c); simpl; [exact IH | done].
Qed.

Lemma drop_while_app_some p s t :
  forallb p s = false → drop_while p (s ++ t) = drop_while p s ++ t.
Proof.
  induction s as [|c s IH]; simpl; [done|].
  destruct (p c); simpl; [exact IH | done].
Qed.

Lemma rstrip_app_whitespace s r :
  forallb isspace r = true → rstrip (s ++ r) = rstrip s.
Proof.
  intros Hr. unfold rstrip. rewrite rev_app_distr.
  rewrite drop_while_app_all; [done | by rewrite forallb_rev].
Qed.

Lemma strip_padding l w r :
  forallb isspace l = true → forallb isspace r = true →
  strip (l ++ w ++ r) = strip w.
Proof.
  intros Hl Hr. unfold strip, lstrip.
  rewrite drop_while_app_all by done.
  destruct (forallb isspace w) eqn:Hw.
  - rewrite drop_while_app_all, (drop_while_all isspace w) by done.
    by rewrite (drop_while_all isspace r).
  - rewrite drop_while_app_some by done. by apply rstrip_app_whitespace.
Qed.

(** C9.  [transliterate_word] sees its argument only through [strip]: the
    result is that of the stripped word, whitespace added at either end
    of a word does not change the result, and a word made of whitespace
    only gives the empty string. *)
Theorem strip_before_lookup (w : str) :
  transliterate_word w = transliterate_word (strip w) ∧
  (∀ l r : str,
     forallb isspace l = true → forallb isspace r = true →
     transliterate_word (l ++ w ++ r) = transliterate_word w) ∧
  (forallb isspace w = true → transliterate_word w = []).
Proof.
  repeat split.
  - unfold transliterate_word. by rewrite strip_idempotent.
  - intros l r Hl Hr. unfold transliterate_word. by rewrite strip_padding.
  - intros Hw. unfold transliterate_word. rewrite strip_whitespace by done.
    vm_compute. reflexivity.
Qed.

Lemma strip_before_lookup_witness :
  transliterate_word ([0x20; 0x09] ++ [0x995; 0x9AC; 0x9BF] ++ [0x0A]) =
    transliterate_word [0x995; 0x9AC; 0x9BF] ∧
  transliterate_word [0x20; 0xA0; 0x3000] = [].
Proof.
  split.
  - apply (proj1 (proj2 (strip_before_lookup [0x995; 0x9AC; 0x9BF])));
      reflexivity.
  - apply (proj2 (proj2 (strip_before_lookup [0x20; 0xA0; 0x3000]))).
    reflexivity.
Defined.






(** C4, as stated, fails on the second case: in the word [ka, virama, ta]
    the virama is followed by exactly one character, the consonant before
    it sits at index [len - 3], and with the scan standing there the test
    holds and the conjunct branch is taken. *)
Lemma virama_before_last_counterexample :
  let w := [0x995; virama; 0x9A4] in
  strip w = w ∧ word_exceptions !! w = None ∧
  char_at w (len w - 2) = virama ∧
  conjunct_guard w (len w - 3) = true ∧
  loop_body w (0, []) = (3, py "kt").
Proof. vm_compute. repeat split; reflexivity. Qed.

(** No key of the exception table ends with the virama. *)
Lemma word_exceptions_virama_last pre :
  word_exceptions !! (pre ++ [virama]) = None.
Proof.
  destruct (word_exceptions !! (pre ++ [virama])) as [v|] eqn:E; [|done].
  pose proof (word_exceptions_forallb
    (λ kv, negb (List.last kv.1 0 =? virama)) _ _ eq_refl E) as H.
  simpl in H. rewrite last_last, Z.eqb_refl in H. done.
Qed.

(** C4, amended.  The test fails whenever the scan stands on one of the
    last two characters, so a virama that ends the stripped word is never
    a conjunct trigger, and the word gives what it gives without that
    virama (no key of the exception table ends with a virama).  A virama
    followed by exactly one character is a trigger when the scan stands on
    the character before it (index [len - 3]) and is substituted on its
    own, to nothing, when the scan stands on it (index [len - 2]).  When
    the stripped word is not a key of the exception table, the result
    ends either way with the substitutions of the character before the
    virama and of the final character; when it is a key, as the words
    golpo and sahitya of the table are, the result is the table's value. *)
Theorem virama_near_end :
  (∀ (w : str) (i : Z), len w - 2 <= i → conjunct_guard w i = false) ∧
  (∀ (w pre : str),
     strip w = pre ++ [virama] →
     transliterate_word w = simple_substitution pre) ∧
  (∀ (w pre : str) (C F : Z),
     strip w = pre ++ [C; virama; F] →
     conjunct_guard (strip w) (len (strip w) - 3) = true ∧
     (∀ result, loop_body (strip w) (len (strip w) - 2, result) =
                  (len (strip w) - 1, result)) ∧
     (word_exceptions !! strip w = None →
      transliterate_word w =
        simple_substitution pre ++ transliterate_character C
          ++ transliterate_character F) ∧
     (∀ v, word_exceptions !! strip w = Some v → transliterate_word w = v)) ∧
  (word_exceptions !! ([0x997] ++ [0x9B2; virama; 0x9AA]) = Some (py "golpo") ∧
   word_exceptions !! ([0x9B8; 0x9BE; 0x9B9; 0x9BF] ++ [0x9A4; virama; 0x9AF])
     = Some (py "sahitya")).
Proof.
  split; [exact conjunct_guard_near_end|]. split; [|split].
  - intros w pre Hw.
    rewrite transliterate_word_scan
      by (rewrite Hw; apply word_exceptions_virama_last).
    rewrite Hw, while_loop_simple_substitution, simple_substitution_app.
    unfold simple_substitution at 2. simpl.
    by rewrite transliterate_character_virama, !app_nil_r.
  - intros w pre C F Hw.
    assert (len (strip w) = len pre + 3) as Hlen
      by (rewrite Hw, len_app; unfold len; simpl; lia).
    assert (0 <= len pre) as Hpre by (unfold len; lia).
    assert (char_at (strip w) (len pre + 1) = virama) as Hv
      by (rewrite Hw, char_at_app_r by lia; reflexivity).
    split; [|split; [|split]].
    + apply conjunct_guard_true. rewrite Hlen.
      replace (len pre + 3 - 3 + 1) with (len pre + 1) by lia.
      split; [lia | done].
    + intros result.
      rewrite loop_body_simple by (apply conjunct_guard_near_end; lia).
      replace (len (strip w) - 2) with (len pre + 1) by lia.
      rewrite Hv, transliterate_character_virama, app_nil_r.
      f_equal. lia.
    + intros Hexc. rewrite transliterate_word_scan by done.
      rewrite Hw, while_loop_simple_substitution, simple_substitution_app.
      unfold simple_substitution at 2. simpl.
      by rewrite transliterate_character_virama, !app_nil_r.
    + intros v Hv'. by apply transliterate_word_exception.
  - split; vm_compute; reflexivity.
Qed.

Lemma virama_near_end_witness :
  transliterate_word [0x995; 0x9A4; 0x9CD] = py "kt" ∧
  transliterate_word [0x9B8; 0x995; 0x9CD; 0x9A4] = py "skt" ∧
  transliterate_word [0x997; 0x9B2; 0x9CD; 0x9AA] = py "golpo".
Proof.
  split; [|split].
  - apply (proj1 (proj2 virama_near_end) _ [0x995; 0x9A4]).
    vm_compute. reflexivity.
  - apply (proj1 (proj2 (proj2 (proj1 (proj2 (proj2 virama_near_end))
             [0x9B8; 0x995; 0x9CD; 0x9A4] [0x9B8] 0x995 0x9A4 eq_refl))));
      vm_compute; reflexivity.
  - apply (proj2 (proj2 (proj2 (proj1 (proj2 (proj2 virama_near_end))
             [0x997; 0x9B2; 0x9CD; 0x9AA] [0x997] 0x9B2 0x9AA eq_refl)))).
    vm_compute. reflexivity.
Defined.

(** ** The partition into runs *)

Lemma same_class_true b c : same_class b c = true ↔ isspace c = b.
Proof.
  destruct b; simpl; unfold nonspace; destruct (isspace c); simpl;
    split; congruence.
Qed.

Lemma same_class_negb b c : same_class (negb b) c = negb (same_class b c).
Proof.
  destruct b; simpl; unfold nonspace; destruct (isspace c); reflexivity.
Qed.

Lemma findall_cons c rest :
  findall (c :: rest) =
    (c :: take_while (same_class (isspace c)) rest)
      :: findall (drop_while (same_class (isspace c)) rest).
Proof. rewrite findall_equation_2. destruct (isspace c); reflexivity. Qed.

Lemma take_while_forallb p s : forallb p (take_while p s) = true.
Proof.
  induction s as [|c s IH]; simpl; [done|].
  destruct (p c) eqn:E; simpl; [by rewrite E | done].
Qed.

Lemma take_while_app p s t :
  forallb p s = true → starts_outside p t → take_while p (s ++ t) = s.
Proof.
  intros Hs Ht. induction s as [|c s IH]; simpl in *.
  - by apply take_while_fixed.
  - apply andb_prop in Hs as [-> Hs]. by rewrite IH.
Qed.

Lemma drop_while_app p s t :
  forallb p s = true → starts_outside p t → drop_while p (s ++ t) = t.
Proof.
  intros Hs Ht. rewrite drop_while_app_all by done. by apply drop_while_fixed.
Qed.

(** The tokens put back together give the text. *)
Lemma concat_findall text : concat (findall text) = text.
Proof.
  remember (List.length text) as n eqn:Hn. revert text Hn.
  induction n as [n IH] using lt_wf_ind. intros [|c rest] Hn.
  - by rewrite findall_equation_1.
  - rewrite findall_cons. simpl.
    rewrite (IH (List.length (drop_while (same_class (isspace c)) rest)));
      [| pose proof (drop_while_length (same_class (isspace c)) rest);
         simpl in Hn; lia | done].
    by rewrite take_drop_while.
Qed.

(** The tokens are runs of alternating classes: each is as long as it
    can be. *)
Lemma findall_alternating text b :
  starts_outside (same_class (negb b)) text → alternating b (findall text).
Proof.
  remember (List.length text) as n eqn:Hn. revert text b Hn.
  induction n as [n IH] using lt_wf_ind. intros [|c rest] b Hn Hstart.
  - rewrite findall_equation_1. constructor.
  - simpl in Hstart. rewrite same_class_negb in Hstart.
    apply negb_false_iff, same_class_true in Hstart.
    rewrite findall_cons, Hstart. constructor.
    + split; [done|]. simpl. rewrite take_while_forallb, andb_true_r.
      by apply same_class_true.
    + apply (IH (List.length (drop_while (same_class b) rest))).
      * pose proof (drop_while_length (same_class b) rest). simpl in Hn. lia.
      * done.
      * rewrite negb_involutive. apply drop_while_starts_outside.
Qed.

Lemma findall_alternating_first text :
  ∃ b, alternating b (findall text).
Proof.
  destruct text as [|c rest].
  - exists true. rewrite findall_equation_1. constructor.
  - exists (isspace c). apply findall_alternating. simpl.
    rewrite same_class_negb. apply negb_false_iff. by apply same_class_true.
Qed.

Lemma alternating_concat_starts b ps :
  alternating b ps → starts_outside (same_class (negb b)) (concat ps).
Proof.
  intros [b'|b' p ps' [Hne Hp] _]; simpl; [done|].
  destruct p as [|c p]; [done|]. simpl in *.
  apply andb_prop in Hp as [Hc _].
  rewrite same_class_negb. by rewrite Hc.
Qed.

(** Conversely, alternating runs are the tokens of their concatenation. *)
Lemma findall_concat b ps : alternating b ps → findall (concat ps) = ps.
Proof.
  induction 1 as [b|b p ps [Hne Hp] Hps IH]; simpl.
  - by rewrite findall_equation_1.
  - destruct p as [|c p]; [done|]. simpl in *.
    apply andb_prop in Hp as [Hc Hp].
    rewrite findall_cons. apply same_class_true in Hc. rewrite Hc.
    pose proof (alternating_concat_starts _ _ Hps) as Hstart.
    rewrite negb_involutive in Hstart.
    by rewrite take_while_app, drop_while_app, IH.
Qed.

Lemma alternating_runs b ps p :
  alternating b ps → In p ps → ∃ b', is_run b' p.
Proof.
  induction 1 as [b|b q ps Hq Hps IH]; simpl; [done|].
  intros [<-|Hin]; [by exists b | by apply IH].
Qed.

Lemma findall_runs text tok :
  In tok (findall text) → ∃ b, is_run b tok.
Proof.
  destruct (findall_alternating_first text) as [b Hb].
  by apply (alternating_runs b).
Qed.

Lemma findall_chars text tok c :
  In tok (findall text) → In c tok → In c text.
Proof.
  intros Htok Hc. rewrite <- (concat_findall text).
  apply in_concat. by exists tok.
Qed.

(** A run is a whitespace token exactly when its class is whitespace. *)
Lemma is_run_str_isspace b p : is_run b p → str_isspace p = b.
Proof.
  intros [Hne Hp]. destruct p as [|c p]; [done|]. unfold str_isspace.
  destruct b; [exact Hp|]. simpl in *.
  apply andb_prop in Hp as [Hc _]. unfold nonspace in Hc.
  by destruct (isspace c).
Qed.

(** ** The text transliterator *)

Lemma simple_substitution_unmapped s :
  (∀ c, In c s → bengali_to_english_map !! [c] = None) →
  simple_substitution s = s.
Proof.
  unfold simple_substitution. induction s as [|c s IH]; simpl; [done|].
  intros H. rewrite (transliterate_character_unmapped c) by (apply H; by left).
  simpl. f_equal. apply IH. intros d Hd. apply H. by right.
Qed.

Lemma simple_substitution_nonspace s :
  forallb nonspace s = true → forallb nonspace (simple_substitution s) = true.
Proof.
  unfold simple_substitution. induction s as [|c s IH]; simpl; [done|].
  intros [Hc Hs]%andb_prop. rewrite forallb_app, IH by done.
  rewrite transliterate_character_nonspace; [done|].
  unfold nonspace in Hc. by destruct (isspace c).
Qed.

Lemma simple_substitution_nonempty s :
  has_letter s = true → simple_substitution s ≠ [].
Proof.
  unfold simple_substitution, has_letter.
  induction s as [|c s IH]; simpl; [done|].
  intros H Happ. apply app_eq_nil in Happ as [Hc Hs].
  apply transliterate_character_nil in Hc. subst c.
  rewrite Z.eqb_refl in H. simpl in H. by apply IH.
Qed.

(** What a non-whitespace token is transliterated to holds no whitespace,
    and is empty only if the token is made of virama signs. *)
Lemma transliterate_word_nonspace tok :
  forallb nonspace tok = true →
  forallb nonspace (transliterate_word tok) = true.
Proof.
  intros H. unfold transliterate_word. rewrite strip_nonspace by done.
  destruct (word_exceptions !! tok) as [v|] eqn:E.
  - by apply word_exceptions_value in E as [_ ?].
  - rewrite while_loop_simple_substitution.
    by apply simple_substitution_nonspace.
Qed.

Lemma transliterate_word_nonempty tok :
  forallb nonspace tok = true → has_letter tok = true →
  transliterate_word tok ≠ [].
Proof.
  intros H Hl. unfold transliterate_word. rewrite strip_nonspace by done.
  destruct (word_exceptions !! tok) as [v|] eqn:E.
  - by apply word_exceptions_value in E as [? _].
  - rewrite while_loop_simple_substitution.
    by apply simple_substitution_nonempty.
Qed.

Lemma transliterate_token_run b p :
  is_run b p → has_letter p = true → is_run b (transliterate_token p).
Proof.
  intros Hrun Hl. unfold transliterate_token.
  rewrite (is_run_str_isspace _ _ Hrun). destruct b; [done|].
  destruct Hrun as [_ Hp]. split.
  - by apply transliterate_word_nonempty.
  - by apply transliterate_word_nonspace.
Qed.

Lemma transliterate_token_alternating b ps :
  alternating b ps → forallb has_letter ps = true →
  alternating b (map transliterate_token ps).
Proof.
  induction 1 as [b|b p ps Hp Hps IH]; simpl; [constructor|].
  intros [Hl Hall]%andb_prop. constructor.
  - by apply transliterate_token_run.
  - by apply IH.
Qed.

(** A token keeps its whitespace characters, and gains none. *)
Lemma transliterate_token_whitespace b p :
  is_run b p →
  List.filter isspace (transliterate_token p) = List.filter isspace p.
Proof.
  assert (∀ s, forallb nonspace s = true → List.filter isspace s = []) as Hnone.
  { induction s as [|c s IH]; simpl; [done|]. unfold nonspace at 1.
    intros [Hc Hs]%andb_prop. destruct (isspace c); [done | by apply IH]. }
  intros Hrun. unfold transliterate_token.
  rewrite (is_run_str_isspace _ _ Hrun). destruct b; [done|].
  destruct Hrun as [_ Hp].
  rewrite (Hnone p) by done.
  by rewrite Hnone by by apply transliterate_word_nonspace.
Qed.

(** C6.  A text in which no character is a key of the character map (the
    virama is one of the keys) and no non-whitespace token is a key of
    the exception table is transliterated to itself. *)
Theorem bengali_free_identity (T : str) :
  (∀ c, In c T → bengali_to_english_map !! [c] = None) →
  (∀ c, In c T → c ≠ virama) →
  (∀ tok, In tok (findall T) → str_isspace tok = false →
          word_exceptions !! tok = None) →
  transliterate_text T = T.
Proof.
  intros Hmap _ Hexc. unfold transliterate_text.
  rewrite <- (concat_findall T) at 2. f_equal.
  rewrite <- (map_id (findall T)) at 2. apply map_ext_in.
  intros tok Htok. unfold transliterate_token.
  destruct (findall_runs _ _ Htok) as [b Hrun].
  pose proof (is_run_str_isspace _ _ Hrun) as Hcls. rewrite Hcls.
  destruct b; [done|]. destruct Hrun as [_ Hp].
  unfold transliterate_word. rewrite strip_nonspace by done.
  rewrite (Hexc tok Htok Hcls), while_loop_simple_substitution.
  apply simple_substitution_unmapped.
  intros c Hc. apply Hmap. by apply (findall_chars T tok).
Qed.

Lemma bengali_free_identity_witness :
  transliterate_text (py "Hello,  world 42!") = py "Hello,  world 42!".
Proof.
  apply bengali_free_identity.
  - intros c Hc. vm_compute in Hc.
    repeat (destruct Hc as [<-|Hc]; [vm_compute; reflexivity|]). destruct Hc.
  - intros c Hc. vm_compute in Hc.
    repeat (destruct Hc as [<-|Hc]; [discriminate|]). destruct Hc.
  - intros tok Htok _. vm_compute in Htok.
    repeat (destruct Htok as [<-|Htok]; [vm_compute; reflexivity|]).
    destruct Htok.
Defined.

(** C3, as stated, fails: between two spaces, a token made of the virama
    alone is transliterated to the empty string, and the two whitespace
    runs of the input are one run, of length two, in the output. *)
Lemma whitespace_structure_counterexample :
  let T := [0x20; virama; 0x20] in
  List.filter str_isspace (findall T) = [[0x20]; [0x20]] ∧
  transliterate_text T = [0x20; 0x20] ∧
  List.filter str_isspace (findall (transliterate_text T)) = [[0x20; 0x20]] ∧
  List.filter str_isspace (findall (transliterate_text T)) ≠
    List.filter str_isspace (findall T).
Proof. vm_compute. repeat split; (reflexivity || discriminate). Qed.

(** C3, amended.  The tokens of a text are runs of alternating classes
    that put together give the text; the result is the tokens put
    together again, the whitespace tokens as they are and the others
    transliterated as words; the whitespace characters of the result are
    those of the text, in order; when every non-whitespace token holds a
    character other than the virama, the tokens of the result are the
    images of the tokens of the text, one for one; the empty text gives
    the empty text. *)
Theorem whitespace_structure (T : str) :
  concat (findall T) = T ∧
  (∃ b, alternating b (findall T)) ∧
  transliterate_text T =
    concat (map (λ tok, if str_isspace tok then tok else transliterate_word tok)
                (findall T)) ∧
  List.filter isspace (transliterate_text T) = List.filter isspace T ∧
  (forallb has_letter (findall T) = true →
   findall (transliterate_text T) = map transliterate_token (findall T) ∧
   List.filter str_isspace (findall (transliterate_text T)) =
     List.filter str_isspace (findall T)) ∧
  transliterate_text [] = [].
Proof.
  destruct (findall_alternating_first T) as [b Hb].
  split; [apply concat_findall|]. split; [by exists b|].
  split; [reflexivity|]. split; [|split].
  - unfold transliterate_text.
    rewrite <- (concat_findall T) at 2.
    rewrite <- !concat_filter_map, map_map. f_equal.
    apply map_ext_in. intros tok Htok.
    destruct (findall_runs _ _ Htok) as [b' Hrun].
    by apply (transliterate_token_whitespace b').
  - intros Hl.
    assert (findall (transliterate_text T) =
            map transliterate_token (findall T)) as Hruns
      by (apply (findall_concat b); by apply transliterate_token_alternating).
    split; [done|]. rewrite Hruns.
    clear Hruns. induction Hb as [b|b p ps Hp Hps IH]; simpl; [done|].
    simpl in Hl. apply andb_prop in Hl as [Hlp Hl].
    pose proof (transliterate_token_run _ _ Hp Hlp) as Hq.
    rewrite (is_run_str_isspace _ _ Hp), (is_run_str_isspace _ _ Hq).
    rewrite (IH Hl). destruct b; [|done]. f_equal.
    unfold transliterate_token. by rewrite (is_run_str_isspace _ _ Hp).
  - vm_compute. reflexivity.
Qed.

Lemma whitespace_structure_witness :
  findall (transliterate_text [0x995; 0x9CD; 0x9A4; 0x20; 0x20; 0x41; 0x0A]) =
    [py "kt"; [0x20; 0x20]; py "A"; [0x0A]].
Proof.
  apply (proj1 (proj1 (proj2 (proj2 (proj2 (proj2
           (whitespace_structure [0x995; 0x9CD; 0x9A4; 0x20; 0x20; 0x41; 0x0A])))))
         eq_refl)).
Defined.

(** ** Text extraction *)

Section SmartExtraction.

Import Pdf.

Variable isalnum : Z → bool.

Local Abbreviation smart_run := (Pdf.smart_run isalnum).

(** The two strategies add their own call to the trace, and nothing
    else; how they end does not depend on the trace, but for the number
    of OCR runs so far. *)
Lemma accumulate_trace sep pages text tr :
  accumulate sep pages text tr = ((accumulate sep pages text []).1, tr).
Proof.
  revert text. induction pages as [|[t|e] pages IH]; intros text; simpl.
  - done.
  - unfold bind, lift. simpl. apply IH.
  - done.
Qed.

Lemma extract_text_from_pdf_run w tr :
  extract_text_from_pdf w tr = (regular_result w, tr ++ [CallRegular]).
Proof.
  unfold regular_result, extract_text_from_pdf, bind, log, try_except, lift,
    raise. simpl.
  destruct (path_exists w); simpl; [|done].
  destruct (pdf_pages w) as [pages|e]; simpl; [|done].
  rewrite accumulate_trace, (accumulate_trace _ _ _ [CallRegular]).
  by destruct (accumulate _ _ _ _).1.
Qed.

Lemma ocr_calls_replicate n : ocr_calls (replicate n CallOcr) = n.
Proof. unfold ocr_calls. induction n as [|n IH]; simpl; [done | by rewrite IH]. Qed.

Lemma extract_text_from_pdf_with_ocr_run w tr :
  extract_text_from_pdf_with_ocr w tr =
    (ocr_result w (ocr_calls tr), tr ++ [CallOcr]).
Proof.
  unfold ocr_result, extract_text_from_pdf_with_ocr, bind, log, try_except,
    lift, raise, get_ocr_calls. simpl. rewrite ocr_calls_replicate.
  destruct (path_exists w); simpl; [|done].
  destruct (ocr_pages w (ocr_calls tr)) as [pages|e]; simpl; [|done].
  rewrite accumulate_trace, (accumulate_trace _ _ _ (_ ++ _)).
  by destruct (accumulate _ _ _ _).1.
Qed.

Lemma meaningful_spec text :
  meaningful isalnum text = true ↔
  50 < len (strip text) ∧ ∃ c, In c (strip text) ∧ isalnum c = true.
Proof.
  unfold meaningful. rewrite andb_true_iff, Z.ltb_lt, existsb_exists. done.
Qed.

(** The three ways a run can go when regular extraction returns, and the
    one way when it raises. *)
Lemma smart_run_meaningful w text :
  regular_result w = Returned text → meaningful isalnum text = true →
  smart_run w = (Returned text, [CallRegular; Print RegularSuccessful]).
Proof.
  intros Hreg Hm. unfold Pdf.smart_run, smart_extract_text_from_pdf,
    try_except, bind. rewrite extract_text_from_pdf_run, Hreg, Hm.
  reflexivity.
Qed.

Lemma smart_run_ocr_returns w text t :
  regular_result w = Returned text → meaningful isalnum text = false →
  ocr_result w 0 = Returned t →
  smart_run w = (Returned t, [CallRegular; Print SwitchingToOcr; CallOcr]).
Proof.
  intros Hreg Hm Hocr. unfold Pdf.smart_run, smart_extract_text_from_pdf,
    try_except, bind. rewrite extract_text_from_pdf_run, Hreg, Hm.
  unfold print, log. simpl. rewrite extract_text_from_pdf_with_ocr_run.
  change (ocr_calls [CallRegular; Print SwitchingToOcr]) with 0%nat.
  rewrite Hocr. simpl. rewrite ?extract_text_from_pdf_with_ocr_run.
  reflexivity.
Qed.

Lemma smart_run_ocr_raises w text e :
  regular_result w = Returned text → meaningful isalnum text = false →
  ocr_result w 0 = Raised e →
  smart_run w =
    (ocr_result w 1,
     [CallRegular; Print SwitchingToOcr; CallOcr;
      Print (RegularFailed e); Print TryingOcr; CallOcr]).
Proof.
  intros Hreg Hm Hocr. unfold Pdf.smart_run, smart_extract_text_from_pdf,
    try_except, bind. rewrite extract_text_from_pdf_run, Hreg, Hm.
  unfold print, log. simpl. rewrite extract_text_from_pdf_with_ocr_run.
  change (ocr_calls [CallRegular; Print SwitchingToOcr]) with 0%nat.
  rewrite Hocr. simpl. rewrite ?extract_text_from_pdf_with_ocr_run.
  reflexivity.
Qed.

Lemma smart_run_regular_raises w e :
  regular_result w = Raised e →
  smart_run w =
    (ocr_result w 0,
     [CallRegular; Print (RegularFailed e); Print TryingOcr; CallOcr]).
Proof.
  intros Hreg. unfold Pdf.smart_run, smart_extract_text_from_pdf,
    try_except, bind. rewrite extract_text_from_pdf_run, Hreg.
  unfold print, log. rewrite extract_text_from_pdf_with_ocr_run.
  reflexivity.
Qed.

(** C7.  When regular extraction returns [text]: the run ends with that
    text and without OCR exactly when the stripped text is longer than 50
    characters and holds an alphanumeric character; otherwise the OCR
    strategy runs and the run ends as its last run does, with the OCR
    text when the first run returns one.  A text of 10 stripped
    characters goes through OCR.  When regular extraction raises, the OCR
    strategy runs once and the run ends as it does. *)
Theorem smart_extraction_policy (w : world) :
  (∀ text, regular_result w = Returned text →
     (smart_run w = (Returned text, [CallRegular; Print RegularSuccessful]) ↔
      50 < len (strip text) ∧ ∃ c, In c (strip text) ∧ isalnum c = true) ∧
     (ocr_calls (smart_run w).2 = 0%nat ↔
      50 < len (strip text) ∧ ∃ c, In c (strip text) ∧ isalnum c = true) ∧
     (len (strip text) <= 50 ∨ (∀ c, In c (strip text) → isalnum c = false) →
      (1 <= ocr_calls (smart_run w).2)%nat ∧
      (smart_run w).1 = ocr_result w (ocr_calls (smart_run w).2 - 1) ∧
      (∀ t, ocr_result w 0 = Returned t → (smart_run w).1 = Returned t)) ∧
     (len (strip text) = 10 → In CallOcr (smart_run w).2)) ∧
  (∀ e, regular_result w = Raised e →
     ocr_calls (smart_run w).2 = 1%nat ∧ (smart_run w).1 = ocr_result w 0).
Proof.
  assert (∀ text, len (strip text) <= 50 ∨
                  (∀ c, In c (strip text) → isalnum c = false) →
                  meaningful isalnum text = false) as Hnot.
  { intros text H. destruct (meaningful isalnum text) eqn:Hm; [|done].
    apply meaningful_spec in Hm as [Hlen (c & Hc & Hal)].
    destruct H as [H|H]; [lia | rewrite (H c Hc) in Hal; done]. }
  split.
  - intros text Hreg.
    destruct (meaningful isalnum text) eqn:Hm.
    + rewrite (smart_run_meaningful w text Hreg Hm).
      pose proof (proj1 (meaningful_spec text) Hm) as Hspec.
      split; [done|]. split; [done|]. split.
      * intros H. by rewrite (Hnot text H) in Hm.
      * intros H. destruct Hspec. lia.
    + assert (¬ (50 < len (strip text) ∧
                 ∃ c, In c (strip text) ∧ isalnum c = true)) as Hspec
        by (intros H; apply meaningful_spec in H; congruence).
      destruct (ocr_result w 0) as [t|e] eqn:Hocr.
      * rewrite (smart_run_ocr_returns w text t Hreg Hm Hocr). simpl.
        split; [split; [discriminate | done]|].
        split; [split; [discriminate | done]|].
        split; [|intros _; right; right; by left].
        intros _. unfold ocr_calls. simpl. split; [lia|].
        split; [done|]. by intros t0 [= ->].
      * rewrite (smart_run_ocr_raises w text e Hreg Hm Hocr). simpl.
        split; [split; [discriminate | done]|].
        split; [split; [discriminate | done]|].
        split; [|intros _; right; right; by left].
        intros _. unfold ocr_calls. simpl. split; [lia|].
        split; [done | discriminate].
  - intros e Hreg. by rewrite (smart_run_regular_raises w e Hreg).
Qed.

(** C8 does not hold of the code.  When regular extraction returns a
    text that is not meaningful and the first run of the OCR strategy
    raises, the exception is caught by the handler written for regular
    extraction, which reports it as a failure of regular extraction and
    runs the OCR strategy a second time; the run ends as that second run
    does.  When regular extraction raises, the OCR strategy runs once and
    what it raises reaches the caller. *)
Theorem ocr_failure_retried (w : world) :
  (∀ (text : str) (e : exn),
     regular_result w = Returned text →
     meaningful isalnum text = false →
     ocr_result w 0 = Raised e →
     ocr_calls (smart_run w).2 = 2%nat ∧
     In (Print (RegularFailed e)) (smart_run w).2 ∧
     (smart_run w).1 = ocr_result w 1 ∧
     (∀ t, ocr_result w 1 = Returned t → (smart_run w).1 = Returned t)) ∧
  (∀ (e e' : exn),
     regular_result w = Raised e →
     ocr_result w 0 = Raised e' →
     ocr_calls (smart_run w).2 = 1%nat ∧ (smart_run w).1 = Raised e').
Proof.
  split.
  - intros text e Hreg Hm Hocr.
    rewrite (smart_run_ocr_raises w text e Hreg Hm Hocr).
    simpl. split; [reflexivity|]. split; [|split; [done | by intros t ->]].
    right; right; right; by left.
  - intros e e' Hreg Hocr. rewrite (smart_run_regular_raises w e Hreg).
    simpl. by rewrite Hocr.
Qed.

End SmartExtraction.

Lemma smart_extraction_policy_witness :
  In Pdf.CallOcr (Pdf.smart_run ascii_isalnum scanned_document).2.
Proof.
  apply (proj2 (proj2 (proj2
    (proj1 (smart_extraction_policy ascii_isalnum scanned_document)
       (py "  Page 1 / 2  " ++ [0x0A]) eq_refl)))).
  vm_compute. reflexivity.
Defined.

Lemma ocr_failure_retried_witness :
  Pdf.ocr_calls (Pdf.smart_run ascii_isalnum scanned_document).2 = 2%nat ∧
  (Pdf.smart_run ascii_isalnum scanned_document).1 =
    Pdf.Returned (py "recognised text" ++ [0x0A; 0x0A]).
Proof.
  pose proof (proj1 (ocr_failure_retried ascii_isalnum scanned_document)
    (py "  Page 1 / 2  " ++ [0x0A])
    (Pdf.Exception "Error performing OCR on PDF: tesseract timed out")
    eq_refl eq_refl eq_refl) as (H2 & _ & _ & Hret).
  split; [exact H2 | apply Hret; reflexivity].
Defined.

(** * Further properties of the transliterator *)

(** ** The scan against per-character substitution *)

(** X1.  Outside the exception table the conjunct branch changes nothing:
    a word is transliterated to the mappings of the characters of its
    stripped form, one after the other, wherever its viramas stand. *)
Theorem scan_is_substitution (w : str) :
  word_exceptions !! strip w = None →
  transliterate_word w = flat_map transliterate_character (strip w).
Proof.
  intros H. rewrite transliterate_word_scan by done.
  apply while_loop_simple_substitution.
Qed.

Lemma scan_is_substitution_witness :
  transliterate_word [0x20; 0x9B8; 0x9CD; 0x9A4; 0x9CD; 0x9B0; 0x9C0] =
    flat_map transliterate_character [0x9B8; 0x9CD; 0x9A4; 0x9CD; 0x9B0; 0x9C0].
Proof. apply scan_is_substitution. vm_compute. reflexivity. Defined.

(** ** What the result is made of *)

Lemma table_values_unmapped k v c :
  bengali_to_english_map !! k = Some v → In c v →
  bengali_to_english_map !! [c] = None.
Proof.
  intros E Hc.
  assert (forallb (λ kv : str * str,
            forallb (λ c, bool_decide (bengali_to_english_map !! [c] = None))
                    kv.2) transliteration_items = true) as Hall
    by (vm_compute; reflexivity).
  pose proof (bengali_to_english_map_forallb _ _ _ Hall E) as H. simpl in H.
  rewrite forallb_forall in H. specialize (H c Hc).
  by apply bool_decide_eq_true in H.
Qed.

Lemma exception_values_unmapped k v c :
  word_exceptions !! k = Some v → In c v →
  bengali_to_english_map !! [c] = None.
Proof.
  intros E Hc.
  assert (forallb (λ kv : str * str,
            forallb (λ c, bool_decide (bengali_to_english_map !! [c] = None))
                    kv.2) word_exception_items = true) as Hall
    by (vm_compute; reflexivity).
  pose proof (word_exceptions_forallb _ _ _ Hall E) as H. simpl in H.
  rewrite forallb_forall in H. specialize (H c Hc).
  by apply bool_decide_eq_true in H.
Qed.

Lemma whitespace_unmapped c :
  isspace c = true → bengali_to_english_map !! [c] = None.
Proof.
  intros Hc. destruct (bengali_to_english_map !! [c]) as [v|] eqn:E; [|done].
  pose proof (bengali_to_english_map_forallb
    (λ kv, match kv.1 with [d] => negb (isspace d) | _ => true end)
    _ _ eq_refl E) as H.
  simpl in H. by rewrite Hc in H.
Qed.

(** Every key of the exception table holds a mapped character, and one
    that is not the virama. *)
Lemma exception_keys_mapped k v :
  word_exceptions !! k = Some v →
  ∃ c, In c k ∧ is_Some (bengali_to_english_map !! [c]).
Proof.
  intros E.
  assert (forallb (λ kv : str * str,
            existsb (λ c, bool_decide (is_Some (bengali_to_english_map !! [c])))
                    kv.1) word_exception_items = true) as Hall
    by (vm_compute; reflexivity).
  pose proof (word_exceptions_forallb _ _ _ Hall E) as H. simpl in H.
  apply existsb_exists in H as (c & Hc & Hm).
  exists c. split; [done | by apply bool_decide_eq_true in Hm].
Qed.

Lemma exception_keys_letter k v :
  word_exceptions !! k = Some v → has_letter k = true.
Proof.
  intros E. exact (word_exceptions_forallb (λ kv, has_letter kv.1) _ _ eq_refl E).
Qed.

Lemma transliterate_character_unmapped_chars d c :
  In c (transliterate_character d) → bengali_to_english_map !! [c] = None.
Proof.
  unfold transliterate_character, transliterate_character_str, dict_get.
  destruct (bengali_to_english_map !! [d]) as [v|] eqn:E; simpl.
  - by apply (table_values_unmapped [d]).
  - by intros [<-|[]].
Qed.

Lemma transliterate_token_unmapped_chars b tok c :
  is_run b tok → In c (transliterate_token tok) →
  bengali_to_english_map !! [c] = None.
Proof.
  intros Hrun. unfold transliterate_token.
  rewrite (is_run_str_isspace _ _ Hrun). destruct Hrun as [_ Hp].
  destruct b.
  - intros Hc. apply whitespace_unmapped.
    rewrite forallb_forall in Hp. by apply Hp.
  - unfold transliterate_word. rewrite strip_nonspace by done.
    destruct (word_exceptions !! tok) as [v|] eqn:E.
    + by apply (exception_values_unmapped tok).
    + rewrite while_loop_simple_substitution. unfold simple_substitution.
      intros (d & _ & Hd)%in_flat_map.
      by apply (transliterate_character_unmapped_chars d).
Qed.

Lemma transliterate_text_chars_unmapped (T : str) (c : Z) :
  In c (transliterate_text T) → bengali_to_english_map !! [c] = None.
Proof.
  unfold transliterate_text.
  intros (piece & Hpiece & Hc)%in_concat.
  apply in_map_iff in Hpiece as (tok & <- & Htok).
  destruct (findall_runs _ _ Htok) as [b Hrun].
  by apply (transliterate_token_unmapped_chars b tok).
Qed.

(** A text of unmapped characters whose tokens miss the exception table
    comes out as it went in. *)
Lemma transliterate_text_fixed (T : str) :
  (∀ c, In c T → bengali_to_english_map !! [c] = None) →
  (∀ tok, In tok (findall T) → word_exceptions !! tok = None) →
  transliterate_text T = T.
Proof.
  intros Hmap Hexc. unfold transliterate_text.
  rewrite <- (concat_findall T) at 2. f_equal.
  rewrite <- (map_id (findall T)) at 2. apply map_ext_in.
  intros tok Htok. unfold transliterate_token.
  destruct (findall_runs _ _ Htok) as [b Hrun].
  rewrite (is_run_str_isspace _ _ Hrun).
  destruct b; [done|]. destruct Hrun as [_ Hp].
  unfold transliterate_word. rewrite strip_nonspace by done.
  rewrite (Hexc tok Htok), while_loop_simple_substitution.
  apply simple_substitution_unmapped.
  intros c Hc. apply Hmap. by apply (findall_chars T tok).
Qed.

(** X2.  No character of a transliterated text is a key of the character
    map (what comes out of the tables is never a key, and what is copied
    from the text was not one), and no token of it is a key of the
    exception table; so transliterating twice is transliterating once. *)
Theorem transliterate_text_idempotent (T : str) :
  (∀ c, In c (transliterate_text T) → bengali_to_english_map !! [c] = None) ∧
  (∀ tok, In tok (findall (transliterate_text T)) →
          word_exceptions !! tok = None) ∧
  transliterate_text (transliterate_text T) = transliterate_text T.
Proof.
  assert (∀ tok, In tok (findall (transliterate_text T)) →
                 word_exceptions !! tok = None) as Hexc.
  { intros tok Htok.
    destruct (word_exceptions !! tok) as [v|] eqn:E; [|done].
    apply exception_keys_mapped in E as (c & Hc & [u Hu]).
    rewrite (transliterate_text_chars_unmapped T c) in Hu; [done|].
    by apply (findall_chars _ tok). }
  split; [apply transliterate_text_chars_unmapped|]. split; [exact Hexc|].
  apply transliterate_text_fixed; [|exact Hexc].
  apply transliterate_text_chars_unmapped.
Qed.

Lemma transliterate_text_idempotent_witness :
  bengali_to_english_map !! [0x6B] = None.
Proof.
  apply (proj1 (transliterate_text_idempotent [0x995; 0x9BE; 0x20; 0x41])).
  vm_compute. by left.
Defined.

(** ** What is erased *)

Lemma simple_substitution_viramas s :
  has_letter s = false → simple_substitution s = [].
Proof.
  unfold has_letter, simple_substitution.
  induction s as [|c s IH]; simpl; [done|].
  intros [Hc Hs]%orb_false_elim. apply negb_false_iff, Z.eqb_eq in Hc.
  subst c. by rewrite transliterate_character_virama, IH.
Qed.

Lemma has_letter_false s :
  has_letter s = false ↔ ∀ c, In c s → c = virama.
Proof.
  unfold has_letter. induction s as [|c s IH]; simpl.
  - split; [intros _ c [] | done].
  - rewrite orb_false_iff, IH, negb_false_iff, Z.eqb_eq. split.
    + intros [-> H] d [<-|Hd]; [done | by apply H].
    + intros H. split; [apply H; by left|].
      intros d Hd. apply H. by right.
Qed.

(** X3.  The result is empty exactly when the text holds nothing but
    virama signs: every other character, whitespace included, leaves at
    least one character in the result. *)
Theorem empty_result (T : str) :
  transliterate_text T = [] ↔ ∀ c, In c T → c = virama.
Proof.
  split.
  - intros Hnil c Hc. rewrite <- (concat_findall T) in Hc.
    apply in_concat in Hc as (tok & Htok & Hc).
    assert (transliterate_token tok = []) as Htt.
    { unfold transliterate_text in Hnil.
      destruct (transliterate_token tok) as [|d u] eqn:E; [done|].
      assert (In d (concat (map transliterate_token (findall T)))) as Hd.
      { apply in_concat. exists (transliterate_token tok). split.
        - by apply in_map.
        - rewrite E. by left. }
      rewrite Hnil in Hd. destruct Hd. }
    destruct (findall_runs _ _ Htok) as [b Hrun].
    destruct (has_letter tok) eqn:Hl.
    + destruct (transliterate_token_run b tok Hrun Hl) as [Hne _]. done.
    + by apply (proj1 (has_letter_false tok) Hl).
  - intros Hall. destruct T as [|c T]; [by vm_compute|].
    assert (has_letter (c :: T) = false) as Hl by by apply has_letter_false.
    assert (is_run false (c :: T)) as Hrun.
    { split; [done|]. apply forallb_forall. intros d Hd.
      rewrite (Hall d Hd). reflexivity. }
    assert (findall (c :: T) = [c :: T]) as Hfind.
    { rewrite <- (findall_concat false [c :: T]).
      - simpl. by rewrite app_nil_r.
      - constructor; [done | constructor]. }
    unfold transliterate_text. rewrite Hfind. simpl. rewrite app_nil_r.
    unfold transliterate_token. rewrite (is_run_str_isspace _ _ Hrun).
    unfold transliterate_word. rewrite strip_nonspace by apply Hrun.
    destruct (word_exceptions !! (c :: T)) as [v|] eqn:E.
    + apply exception_keys_letter in E. congruence.
    + rewrite while_loop_simple_substitution.
      by apply simple_substitution_viramas.
Qed.

(** ** Texts put together *)

Lemma take_while_all p s : forallb p s = true → take_while p s = s.
Proof.
  induction s as [|c s IH]; simpl; [done|].
  intros [-> Hs]%andb_prop. by rewrite IH.
Qed.

Lemma take_while_app_some p s t :
  forallb p s = false → take_while p (s ++ t) = take_while p s.
Proof.
  induction s as [|c s IH]; simpl; [done|].
  destruct (p c); simpl; [intros H; by rewrite IH | done].
Qed.

(** What is left of a string that ends with [x] after a run that does not
    take all of it ends with [x] too, and is no longer. *)
Lemma drop_while_keeps_last p a x :
  forallb p (a ++ [x]) = false →
  ∃ a', drop_while p (a ++ [x]) = a' ++ [x] ∧
        (List.length a' <= List.length a)%nat.
Proof.
  induction a as [|c a IH]; simpl.
  - destruct (p x); [done|]. intros _. by exists [].
  - destruct (p c) eqn:Hc; simpl.
    + intros H. destruct (IH H) as (a' & -> & Hlen).
      exists a'. split; [done | lia].
    + intros _. exists (c :: a). split; [done | simpl; lia].
Qed.

Lemma findall_app a x y b :
  isspace x ≠ isspace y →
  findall ((a ++ [x]) ++ y :: b) = findall (a ++ [x]) ++ findall (y :: b).
Proof.
  intros Hxy. remember (List.length a) as n eqn:Hn. revert a Hn.
  induction n as [n IH] using lt_wf_ind. intros [|c a] Hn.
  - simpl. rewrite !(findall_cons x).
    assert (same_class (isspace x) y = false) as Hy.
    { destruct (same_class (isspace x) y) eqn:E; [|done].
      apply same_class_true in E. congruence. }
    simpl take_while. simpl drop_while. rewrite Hy.
    by rewrite findall_equation_1.
  - simpl. rewrite !(findall_cons c).
    set (p := same_class (isspace c)).
    destruct (forallb p (a ++ [x])) eqn:Hall.
    + assert (starts_outside p (y :: b)) as Hy.
      { simpl. rewrite forallb_app in Hall. simpl in Hall.
        apply andb_prop in Hall as [_ Hx]. rewrite andb_true_r in Hx.
        apply same_class_true in Hx.
        destruct (p y) eqn:E; [|done].
        apply same_class_true in E. congruence. }
      rewrite take_while_app, drop_while_app by done.
      rewrite take_while_all, drop_while_all by done.
      by rewrite findall_equation_1.
    + rewrite take_while_app_some, drop_while_app_some by done.
      destruct (drop_while_keeps_last p a x Hall) as (a' & -> & Hlen).
      rewrite (IH (List.length a')); [done | simpl in Hn; lia | done].
Qed.

(** X4.  Where a whitespace character meets a character that is not
    whitespace, a text can be cut and its two parts transliterated on
    their own. *)
Theorem transliterate_text_app (a b : str) (x y : Z) :
  isspace x ≠ isspace y →
  transliterate_text ((a ++ [x]) ++ y :: b) =
    transliterate_text (a ++ [x]) ++ transliterate_text (y :: b).
Proof.
  intros Hxy. unfold transliterate_text.
  by rewrite findall_app, map_app, concat_app.
Qed.

Lemma transliterate_text_app_witness :
  transliterate_text (([0x995; 0x9AC; 0x9BF] ++ [0x20]) ++ 0x9AC :: [0x9BE]) =
    py "kobi " ++ py "ba".
Proof.
  apply (transliterate_text_app [0x995; 0x9AC; 0x9BF] [0x9BE] 0x20 0x9AC).
  vm_compute. discriminate.
Defined.

(** ** Keys of more than one character *)

Lemma transliterate_character_nukta : transliterate_character nukta = [nukta].
Proof. vm_compute. reflexivity. Qed.

(** The nukta sign is in no value of the character map, and in no key and
    no value of the exception table. *)
Lemma transliterate_character_no_nukta c :
  c ≠ nukta →
  List.filter (λ d, d =? nukta) (transliterate_character c) = [].
Proof.
  intros Hc. unfold transliterate_character, transliterate_character_str, dict_get.
  destruct (bengali_to_english_map !! [c]) as [v|] eqn:E; simpl.
  - pose proof (bengali_to_english_map_forallb
      (λ kv, bool_decide (List.filter (λ d, d =? nukta) kv.2 = []))
      _ _ eq_refl E) as H.
    simpl in H. by apply bool_decide_eq_true in H.
  - destruct (Z.eqb_spec c nukta); done.
Qed.

Lemma word_exceptions_no_nukta k v :
  word_exceptions !! k = Some v →
  List.filter (λ d, d =? nukta) k = [] ∧ List.filter (λ d, d =? nukta) v = [].
Proof.
  intros E.
  pose proof (word_exceptions_forallb
    (λ kv, bool_decide (List.filter (λ d, d =? nukta) kv.1 = [])
           && bool_decide (List.filter (λ d, d =? nukta) kv.2 = []))
    _ _ eq_refl E) as H.
  simpl in H. apply andb_prop in H as [H1 H2].
  apply bool_decide_eq_true in H1. apply bool_decide_eq_true in H2. done.
Qed.

Lemma simple_substitution_nukta s :
  List.filter (λ d, d =? nukta) (simple_substitution s) =
    List.filter (λ d, d =? nukta) s.
Proof.
  unfold simple_substitution. induction s as [|c s IH]; simpl; [done|].
  rewrite List.filter_app, IH.
  destruct (Z.eqb_spec c nukta) as [->|Hne].
  - by rewrite transliterate_character_nukta.
  - by rewrite transliterate_character_no_nukta.
Qed.

Lemma transliterate_token_nukta b tok :
  is_run b tok →
  List.filter (λ d, d =? nukta) (transliterate_token tok) =
    List.filter (λ d, d =? nukta) tok.
Proof.
  intros Hrun. unfold transliterate_token.
  rewrite (is_run_str_isspace _ _ Hrun). destruct b; [done|].
  destruct Hrun as [_ Hp].
  unfold transliterate_word. rewrite strip_nonspace by done.
  destruct (word_exceptions !! tok) as [v|] eqn:E.
  - apply word_exceptions_no_nukta in E as [-> ->]. done.
  - rewrite while_loop_simple_substitution. apply simple_substitution_nukta.
Qed.

(** X5.  The three entries of the character map whose keys are a letter
    followed by the nukta sign are what [transliterate_character] returns
    for these two-character strings, but the transliteration of words and
    texts never uses them, since it looks characters up one at a time:
    a mapped letter followed by the sign gives the mapping of the letter
    followed by the sign itself, and the occurrences of the sign in a
    transliterated text are those of the text, all of them copied. *)
Theorem long_keys_unreached :
  (transliterate_character_str [0x9A1; nukta] = py "r" ∧
   transliterate_character_str [0x9A2; nukta] = py "rh" ∧
   transliterate_character_str [0x9AF; nukta] = py "y") ∧
  (∀ (c : Z) (v : str),
     bengali_to_english_map !! [c] = Some v →
     transliterate_word [c; nukta] = v ++ [nukta]) ∧
  (∀ T : str,
     List.filter (λ d, d =? nukta) (transliterate_text T) =
       List.filter (λ d, d =? nukta) T).
Proof.
  split; [repeat split; vm_compute; reflexivity|]. split.
  - intros c v Hc.
    assert (isspace c = false) as Hsp.
    { destruct (isspace c) eqn:E; [|done].
      apply whitespace_unmapped in E. congruence. }
    assert (strip [c; nukta] = [c; nukta]) as Hstrip.
    { apply strip_nonspace. simpl. unfold nonspace at 1. by rewrite Hsp. }
    assert (word_exceptions !! [c; nukta] = None) as Hexc.
    { destruct (word_exceptions !! [c; nukta]) as [u|] eqn:E; [|done].
      apply word_exceptions_key_length in E. unfold len in E. simpl in E. lia. }
    unfold transliterate_word. rewrite Hstrip, Hexc.
    rewrite while_loop_simple_substitution. unfold simple_substitution. simpl.
    rewrite app_nil_r, (transliterate_character_mapped c v Hc).
    by rewrite transliterate_character_nukta.
  - intros T. unfold transliterate_text.
    rewrite <- (concat_findall T) at 2.
    rewrite <- !concat_filter_map, map_map. f_equal.
    apply map_ext_in. intros tok Htok.
    destruct (findall_runs _ _ Htok) as [b Hrun].
    by apply (transliterate_token_nukta b).
Qed.

Lemma long_keys_unreached_witness :
  transliterate_word [0x9A1; nukta] = py "d" ++ [nukta].
Proof.
  apply (proj1 (proj2 long_keys_unreached) 0x9A1 (py "d")).
  vm_compute. reflexivity.
Defined.

(** * Further properties of text extraction *)

Section ExtractionStrategies.

Import Pdf.

Variable isalnum : Z → bool.

Local Abbreviation smart_run := (Pdf.smart_run isalnum).

Lemma accumulate_returned sep texts text tr :
  accumulate sep (map Returned texts) text tr =
    (Returned (text ++ concat (map (λ t, t ++ sep) texts)), tr).
Proof.
  revert text. induction texts as [|t texts IH]; intros text; simpl.
  - unfold ret. by rewrite app_nil_r.
  - unfold bind, lift. rewrite IH. by rewrite <- !app_assoc.
Qed.

Lemma accumulate_raised sep pages text tr e :
  In (Raised e) pages → ∃ e', (accumulate sep pages text tr).1 = Raised e'.
Proof.
  revert text. induction pages as [|[t|e0] pages IH]; intros text; simpl.
  - done.
  - intros [Heq|Hin]; [done|]. unfold bind, lift. by apply IH.
  - intros _. by exists e0.
Qed.

Lemma regular_result_missing w :
  path_exists w = false → regular_result w = Raised (not_found w).
Proof.
  intros H. unfold regular_result, extract_text_from_pdf, bind, log. simpl.
  by rewrite H.
Qed.

Lemma ocr_result_missing w n :
  path_exists w = false → ocr_result w n = Raised (not_found w).
Proof.
  intros H. unfold ocr_result, extract_text_from_pdf_with_ocr, bind, log,
    get_ocr_calls. simpl. by rewrite H.
Qed.

Lemma regular_result_returned w texts :
  path_exists w = true → pdf_pages w = Returned (map Returned texts) →
  regular_result w = Returned (concat (map (λ t, t ++ [0x0A]) texts)).
Proof.
  intros H Hp. unfold regular_result, extract_text_from_pdf, bind, log,
    try_except, lift. simpl. rewrite H, Hp. simpl.
  by rewrite accumulate_returned.
Qed.

Lemma ocr_result_returned w n texts :
  path_exists w = true → ocr_pages w n = Returned (map Returned texts) →
  ocr_result w n = Returned (concat (map (λ t, t ++ [0x0A; 0x0A]) texts)).
Proof.
  intros H Hp. unfold ocr_result, extract_text_from_pdf_with_ocr,
    bind, log, try_except, lift, get_ocr_calls. simpl.
  rewrite ocr_calls_replicate, H, Hp. simpl.
  by rewrite accumulate_returned.
Qed.

(** The loop over the pages stops at the first page that fails, with
    its exception. *)
Lemma accumulate_first_raised sep pages text tr :
  match first_raised pages with
  | Some e => (accumulate sep pages text tr).1 = Raised e
  | None => ∃ t, (accumulate sep pages text tr).1 = Returned t
  end.
Proof.
  revert text. induction pages as [|[t|e] pages IH]; intros text; simpl.
  - by eexists.
  - unfold bind, lift. apply IH.
  - done.
Qed.

(** X6.  The two strategies raise a [FileNotFoundError] for a path that
    does not exist (and then ask nothing of the libraries).  For a path
    that exists they raise exactly when the library fails before the pages
    or on a page, and what they raise is an [Exception] whose message is
    their own prefix followed by the text of that first failure; no
    exception of a library comes out as it is. *)
Theorem strategy_errors (w : world) :
  (path_exists w = false →
   regular_result w = Raised (not_found w) ∧
   ∀ n, ocr_result w n = Raised (not_found w)) ∧
  (path_exists w = true →
   (∀ cause, library_failure (pdf_pages w) = Some cause →
      regular_result w =
        Raised (Exception (String.append "Error reading PDF: "
                                         (exn_str cause)))) ∧
   (library_failure (pdf_pages w) = None →
      ∃ text, regular_result w = Returned text) ∧
   (∀ n cause, library_failure (ocr_pages w n) = Some cause →
      ocr_result w n =
        Raised (Exception (String.append "Error performing OCR on PDF: "
                                         (exn_str cause)))) ∧
   (∀ n, library_failure (ocr_pages w n) = None →
      ∃ text, ocr_result w n = Returned text)).
Proof.
  split.
  - intros H. split; [by apply regular_result_missing|].
    intros n. by apply ocr_result_missing.
  - intros H.
    assert (∀ cause, library_failure (pdf_pages w) = Some cause →
              regular_result w =
                Raised (Exception (String.append "Error reading PDF: "
                                                 (exn_str cause)))) as Hr1.
    { intros cause. unfold regular_result, extract_text_from_pdf, bind, log,
        try_except, lift, raise, library_failure. simpl. rewrite H. simpl.
      destruct (pdf_pages w) as [pages|e]; simpl; [|by intros [= ->]].
      intros Hc.
      pose proof (accumulate_first_raised [0x0A] pages [] [CallRegular]) as Ha.
      rewrite Hc in Ha.
      destruct (accumulate _ pages _ _) as [o tr']. simpl in Ha. by subst o. }
    assert (library_failure (pdf_pages w) = None →
              ∃ text, regular_result w = Returned text) as Hr2.
    { unfold regular_result, extract_text_from_pdf, bind, log,
        try_except, lift, raise, library_failure. simpl. rewrite H. simpl.
      destruct (pdf_pages w) as [pages|e]; simpl; [|done].
      intros Hc.
      pose proof (accumulate_first_raised [0x0A] pages [] [CallRegular]) as Ha.
      rewrite Hc in Ha. destruct Ha as [t Ht].
      destruct (accumulate _ pages _ _) as [o tr']. simpl in Ht. subst o.
      by exists t. }
    split; [exact Hr1|]. split; [exact Hr2|]. split.
    + intros n cause. unfold ocr_result, extract_text_from_pdf_with_ocr, bind,
        log, try_except, lift, raise, get_ocr_calls, library_failure. simpl.
      rewrite ocr_calls_replicate, H. simpl.
      destruct (ocr_pages w n) as [pages|e]; simpl; [|by intros [= ->]].
      intros Hc.
      pose proof (accumulate_first_raised [0x0A; 0x0A] pages []
                    (replicate n CallOcr ++ [CallOcr])) as Ha.
      rewrite Hc in Ha.
      destruct (accumulate _ pages _ _) as [o tr']. simpl in Ha. by subst o.
    + intros n. unfold ocr_result, extract_text_from_pdf_with_ocr, bind,
        log, try_except, lift, raise, get_ocr_calls, library_failure. simpl.
      rewrite ocr_calls_replicate, H. simpl.
      destruct (ocr_pages w n) as [pages|e]; simpl; [|done].
      intros Hc.
      pose proof (accumulate_first_raised [0x0A; 0x0A] pages []
                    (replicate n CallOcr ++ [CallOcr])) as Ha.
      rewrite Hc in Ha. destruct Ha as [t Ht].
      destruct (accumulate _ pages _ _) as [o tr']. simpl in Ht. subst o.
      by exists t.
Qed.

(** X7.  For a path that exists, when every page gives its text regular
    extraction returns the texts in order, a line feed after each, and
    the OCR strategy returns them with two line feeds after each; a
    document without pages gives the empty text.  When a single page
    fails, the strategy raises: no partial text is returned. *)
Theorem strategy_text (w : world) :
  path_exists w = true →
  (∀ texts, pdf_pages w = Returned (map Returned texts) →
     regular_result w = Returned (concat (map (λ t, t ++ [0x0A]) texts))) ∧
  (∀ n texts, ocr_pages w n = Returned (map Returned texts) →
     ocr_result w n =
       Returned (concat (map (λ t, t ++ [0x0A; 0x0A]) texts))) ∧
  (∀ pages e, pdf_pages w = Returned pages → In (Raised e) pages →
     ∃ e', regular_result w = Raised e') ∧
  (∀ n pages e, ocr_pages w n = Returned pages → In (Raised e) pages →
     ∃ e', ocr_result w n = Raised e').
Proof.
  intros H. split; [|split; [|split]].
  - intros texts Hp. by apply regular_result_returned.
  - intros n texts Hp. by apply ocr_result_returned.
  - intros pages e Hp Hin. unfold regular_result, extract_text_from_pdf, bind,
      log, try_except, lift, raise. simpl. rewrite H, Hp. simpl.
    destruct (accumulate_raised [0x0A] pages [] [CallRegular] e Hin) as [e' He'].
    destruct (accumulate _ pages _ _) as [[t|cause] tr'] eqn:E; simpl in *.
    + done.
    + by eexists.
  - intros n pages e Hp Hin. unfold ocr_result, extract_text_from_pdf_with_ocr,
      bind, log, try_except, lift, raise, get_ocr_calls. simpl.
    rewrite ocr_calls_replicate, H, Hp. simpl.
    destruct (accumulate_raised [0x0A; 0x0A] pages []
                (replicate n CallOcr ++ [CallOcr]) e Hin) as [e' He'].
    destruct (accumulate _ pages _ _) as [[t|cause] tr'] eqn:E; simpl in *.
    + done.
    + by eexists.
Qed.

(** X8.  For a path that does not exist the smart extraction does not
    stop at the failure of regular extraction: it reports it, announces
    OCR, runs the OCR strategy once, and it is that run's
    [FileNotFoundError] which reaches the caller. *)
Theorem smart_extraction_missing_file (w : world) :
  path_exists w = false →
  smart_run w =
    (Raised (not_found w),
     [CallRegular; Print (RegularFailed (not_found w)); Print TryingOcr;
      CallOcr]).
Proof.
  intros H.
  rewrite (smart_run_regular_raises isalnum w (not_found w))
    by by apply regular_result_missing.
  by rewrite ocr_result_missing.
Qed.

(** X9.  Whatever the world, a run of the smart extraction calls regular
    extraction first and once, runs the OCR strategy twice at most, and
    ends as one of these calls ended. *)
Theorem smart_extraction_calls (w : world) :
  (∃ rest, (smart_run w).2 = CallRegular :: rest ∧ ¬ In CallRegular rest) ∧
  (ocr_calls (smart_run w).2 <= 2)%nat ∧
  ((smart_run w).1 = regular_result w ∨
   (smart_run w).1 = ocr_result w 0 ∨
   (smart_run w).1 = ocr_result w 1).
Proof.
  assert (∀ l : list event, ¬ In CallRegular l ↔
            forallb (λ ev, match ev with CallRegular => false | _ => true end)
                    l = true) as Hno.
  { intros l. rewrite forallb_forall. split.
    - intros H ev Hev. destruct ev; [done | done | done].
    - intros H Hin. by apply H in Hin. }
  destruct (regular_result w) as [text|e] eqn:Hreg.
  - destruct (meaningful isalnum text) eqn:Hm.
    + rewrite (smart_run_meaningful isalnum w text Hreg Hm). simpl.
      split; [eexists; split; [done | by apply Hno]|].
      split; [unfold ocr_calls; simpl; lia | by left].
    + destruct (ocr_result w 0) as [t|e] eqn:Hocr.
      * rewrite (smart_run_ocr_returns isalnum w text t Hreg Hm Hocr). simpl.
        split; [eexists; split; [done | by apply Hno]|].
        split; [unfold ocr_calls; simpl; lia | right; by left].
      * rewrite (smart_run_ocr_raises isalnum w text e Hreg Hm Hocr). simpl.
        split; [eexists; split; [done | by apply Hno]|].
        split; [unfold ocr_calls; simpl; lia | right; by right].
  - rewrite (smart_run_regular_raises isalnum w e Hreg). simpl.
    split; [eexists; split; [done | by apply Hno]|].
    split; [unfold ocr_calls; simpl; lia | right; by left].
Qed.

(** X10.  A document whose pages carry no text but whitespace (a scanned
    document; also a document without pages) always goes through OCR, and
    the run ends as its last OCR run does. *)
Theorem blank_text_layer_goes_to_ocr (w : world) (texts : list str) :
  path_exists w = true →
  pdf_pages w = Returned (map Returned texts) →
  (∀ t, In t texts → forallb isspace t = true) →
  (1 <= ocr_calls (smart_run w).2)%nat ∧
  (smart_run w).1 = ocr_result w (ocr_calls (smart_run w).2 - 1).
Proof.
  intros Hex Hpages Hblank.
  pose proof (regular_result_returned w texts Hex Hpages) as Hreg.
  set (text := concat (map (λ t, t ++ [0x0A]) texts)) in *.
  assert (forallb isspace text = true) as Hws.
  { apply forallb_forall. intros c (piece & Hpiece & Hc)%in_concat.
    apply in_map_iff in Hpiece as (t & <- & Ht).
    apply in_app_or in Hc as [Hc|[<-|[]]]; [|done].
    specialize (Hblank t Ht). rewrite forallb_forall in Hblank. by apply Hblank. }
  assert (meaningful isalnum text = false) as Hm.
  { unfold meaningful. by rewrite strip_whitespace. }
  destruct (ocr_result w 0) as [t|e] eqn:Hocr.
  - rewrite (smart_run_ocr_returns isalnum w text t Hreg Hm Hocr).
    unfold ocr_calls. simpl. split; [lia | done].
  - rewrite (smart_run_ocr_raises isalnum w text e Hreg Hm Hocr).
    unfold ocr_calls. simpl. split; [lia | done].
Qed.

End ExtractionStrategies.

Lemma strategy_errors_witness :
  Pdf.ocr_result scanned_document 0 =
    Pdf.Raised
      (Pdf.Exception "Error performing OCR on PDF: tesseract timed out") ∧
  Pdf.regular_result missing_document = Pdf.Raised (not_found missing_document).
Proof.
  split.
  - apply (proj1 (proj2 (proj2 (proj2 (strategy_errors scanned_document)
                                  eq_refl))) 0%nat
             (Pdf.LibraryError "tesseract timed out")).
    reflexivity.
  - apply (proj1 (proj1 (strategy_errors missing_document) eq_refl)).
Defined.

Lemma strategy_text_witness :
  Pdf.regular_result scanned_document =
    Pdf.Returned (py "  Page 1 / 2  " ++ [0x0A]).
Proof.
  apply (proj1 (strategy_text scanned_document eq_refl)
           [py "  Page 1 / 2  "]).
  reflexivity.
Defined.

(** * Properties of rendering and of the pipeline *)

(** ** Stripping and splitting *)

Lemma strip_clean_ends s :
  starts_outside isspace (strip s) ∧ starts_outside isspace (rev (strip s)).
Proof.
  split.
  - apply rstrip_starts_outside, drop_while_starts_outside.
  - unfold strip, rstrip. rewrite rev_involutive.
    apply drop_while_starts_outside.
Qed.

Lemma filter_drop_while s :
  List.filter nonspace (drop_while isspace s) = List.filter nonspace s.
Proof.
  induction s as [|c s IH]; simpl; [done|].
  assert (nonspace c = negb (isspace c)) as Hc by done.
  destruct (isspace c); simpl in *; rewrite ?Hc; [exact IH | done].
Qed.

(** [strip] removes whitespace only. *)
Lemma filter_strip s :
  List.filter nonspace (strip s) = List.filter nonspace s.
Proof.
  unfold strip, rstrip, lstrip.
  rewrite filter_rev, filter_drop_while, <- filter_rev, rev_involutive.
  apply filter_drop_while.
Qed.

Lemma strip_chars s c : In c (strip s) → In c s.
Proof.
  intros Hc. destruct (rstrip_prefix (lstrip s)) as [tail Htail].
  assert (In c (lstrip s)) as Hl
    by (rewrite Htail; apply in_or_app; by left).
  unfold lstrip in Hl. rewrite <- (take_drop_while isspace s).
  apply in_or_app. by right.
Qed.

Lemma split_cons sep c s :
  Render.split sep (c :: s) =
    if c =? sep then [] :: Render.split sep s
    else match Render.split sep s with
         | piece :: pieces => (c :: piece) :: pieces
         | [] => [[c]]
         end.
Proof. reflexivity. Qed.

Lemma split_not_nil sep s : Render.split sep s ≠ [].
Proof.
  destruct s as [|c s]; [done|]. rewrite split_cons.
  destruct (c =? sep); [done|]. by destruct (Render.split sep s).
Qed.

Lemma split_length sep s :
  List.length (Render.split sep s) =
    S (List.length (List.filter (λ c, c =? sep) s)).
Proof.
  induction s as [|c s IH]; [done|]. rewrite split_cons. simpl.
  destruct (c =? sep); simpl; [by rewrite IH|].
  pose proof (split_not_nil sep s).
  destruct (Render.split sep s); [done | exact IH].
Qed.

Lemma split_no_sep sep s piece :
  In piece (Render.split sep s) → ¬ In sep piece.
Proof.
  revert piece. induction s as [|c s IH]; intros piece.
  - intros [<-|[]]. by intros [].
  - rewrite split_cons. destruct (Z.eqb_spec c sep) as [->|Hne].
    + intros [<-|Hin]; [by intros [] | by apply IH].
    + destruct (Render.split sep s) as [|p ps] eqn:E.
      * intros [<-|[]]. intros [?|[]]. done.
      * intros [<-|Hin].
        -- intros [?|Hp]; [done|]. apply (IH p); [by left | done].
        -- apply IH. by right.
Qed.

Lemma split_concat sep s :
  concat (Render.split sep s) = List.filter (λ c, negb (c =? sep)) s.
Proof.
  induction s as [|c s IH]; [done|]. rewrite split_cons. simpl.
  destruct (c =? sep); simpl; [exact IH|].
  pose proof (split_not_nil sep s).
  destruct (Render.split sep s) as [|p ps]; [done|].
  simpl in *. by rewrite IH.
Qed.

Section Rendering.

Import Pdf Render.

Variable rw : Render.world.

Lemma block_text_block_of para : block_text (block_of para) = strip para.
Proof. unfold block_of. by destruct (strip para). Qed.

(** The loop returns the story with one block more for each line, unless
    the library refuses a paragraph; it leaves the trace as it is. *)
Lemma append_paragraphs_eq paragraphs story tr :
  append_paragraphs rw paragraphs story tr =
    match first_refusal rw
            (List.filter (λ para, negb (bool_decide (para = [])))
                         (map strip paragraphs)) with
    | Some e => (Raised e, tr)
    | None => (Returned (story ++ map block_of paragraphs), tr)
    end.
Proof.
  revert story. induction paragraphs as [|para paragraphs IH]; intros story.
  - simpl. unfold Render.ret. by rewrite app_nil_r.
  - simpl. unfold block_of. destruct (strip para) as [|c s] eqn:Hs; simpl.
    + rewrite IH. destruct (first_refusal _ _); [done|].
      by rewrite <- app_assoc.
    + unfold Render.bind, new_paragraph.
      destruct (markup_error rw (c :: s)) as [e|]; [done|].
      unfold Render.ret. rewrite IH. destruct (first_refusal _ _); [done|].
      by rewrite <- app_assoc.
Qed.

(** A run of [create_transliterated_pdf], in full. *)
Lemma create_transliterated_pdf_eq text output_path title tr :
  create_transliterated_pdf rw text output_path title tr =
    match refusal rw title text with
    | Some e => (Raised (creation_error e), tr)
    | None =>
        (match build_result rw output_path (story_of title text) with
         | Returned u => Returned u
         | Raised e => Raised (creation_error e)
         end,
         tr ++ [Build output_path (story_of title text)])
    end.
Proof.
  unfold create_transliterated_pdf, refusal, nonblank_lines,
    Render.try_except, Render.bind, new_paragraph, doc_build, Render.raise,
    Render.ret. simpl.
  destruct (markup_error rw title) as [e0|]; [done|].
  rewrite append_paragraphs_eq.
  destruct (first_refusal _ _) as [e|]; [done|].
  change ([Paragraph title title_style; Spacer 1 12]
            ++ map block_of (split 0x0A text)) with (story_of title text).
  by destruct (build_result rw output_path (story_of title text)).
Qed.

Lemma first_refusal_none texts :
  first_refusal rw texts = None ↔ ∀ t, In t texts → markup_error rw t = None.
Proof.
  induction texts as [|t texts IH]; simpl.
  - split; [intros _ t [] | done].
  - destruct (markup_error rw t) as [e|] eqn:E.
    + split; [done|]. intros H. rewrite (H t) in E; [done | by left].
    + rewrite IH. split.
      * intros H u [<-|Hu]; [done | by apply H].
      * intros H u Hu. apply H. by right.
Qed.

Lemma refusal_none title text :
  refusal rw title text = None ↔
  markup_error rw title = None ∧
  ∀ para, In para (split 0x0A text) → strip para ≠ [] →
          markup_error rw (strip para) = None.
Proof.
  unfold refusal, nonblank_lines. rewrite first_refusal_none. split.
  - intros H. split; [apply H; by left|].
    intros para Hin Hne. apply H. right. apply filter_In. split.
    + apply in_map_iff. by exists para.
    + apply negb_true_iff. by apply bool_decide_eq_false.
  - intros [Ht Hall] t [<-|Hin]; [done|].
    apply filter_In in Hin as [Hin Hne].
    apply in_map_iff in Hin as (para & <- & Hpara).
    apply Hall; [done|].
    by apply negb_true_iff, bool_decide_eq_false in Hne.
Qed.

(** X11.  [create_transliterated_pdf] hands the writer a document exactly
    when the layout library refuses neither the title nor any line that
    is not blank, stripped; the document is the title paragraph and a
    spacer followed by one block for each line of the text, and the run
    then ends as the writer does, a failure of the writer coming out as
    an [Exception] made of [Error creating PDF: ] and the text of that
    failure.  When a paragraph is refused nothing is handed to the
    writer, and what is raised is the [Exception] made of the same prefix
    and the text of the first refusal. *)
Theorem create_transliterated_pdf_run (text : str) (output_path : string)
    (title : str) (tr : list Render.event) :
  let run := create_transliterated_pdf rw text output_path title tr in
  let accepted :=
    markup_error rw title = None ∧
    ∀ para, In para (split 0x0A text) → strip para ≠ [] →
            markup_error rw (strip para) = None in
  (accepted ↔ run.2 = tr ++ [Build output_path (story_of title text)]) ∧
  (¬ accepted ↔ run.2 = tr) ∧
  (accepted →
   run.1 = match build_result rw output_path (story_of title text) with
           | Returned u => Returned u
           | Raised e => Raised (creation_error e)
           end) ∧
  (accepted ↔ refusal rw title text = None) ∧
  (∀ e, refusal rw title text = Some e →
     run = (Raised (creation_error e), tr)) ∧
  (run.1 = Returned tt →
   run.2 = tr ++ [Build output_path (story_of title text)]).
Proof.
  cbv zeta. rewrite create_transliterated_pdf_eq.
  assert (∀ (l : list Render.event) ev, l ++ [ev] ≠ l) as Hgrow.
  { intros l ev H. apply (f_equal (@List.length _)) in H.
    rewrite length_app in H. simpl in H. lia. }
  pose proof (refusal_none title text) as Hacc.
  destruct (refusal rw title text) as [e0|] eqn:Href; cbn [fst snd].
  - assert (¬ (markup_error rw title = None ∧
               ∀ para, In para (split 0x0A text) → strip para ≠ [] →
                       markup_error rw (strip para) = None)) as Hno
      by (intros H; apply Hacc in H; done).
    split; [split; [done|]|].
    { intros H. symmetry in H. by apply Hgrow in H. }
    split; [done|]. split; [done|]. split.
    { split; [done|]. intros H. by apply Hacc in H. }
    split; [by intros e [= <-] | done].
  - assert (markup_error rw title = None ∧
            ∀ para, In para (split 0x0A text) → strip para ≠ [] →
                    markup_error rw (strip para) = None) as Hyes
      by by apply Hacc.
    split; [done|]. split.
    { split; [done|]. intros H. by apply Hgrow in H. }
    split; [done|]. split; [done|]. split; [done | done].
Qed.

End Rendering.

Section Story.

Import Pdf Render.

(** X12.  The story has three blocks more than the text has line feeds:
    the title in the title style, a spacer, and one block for each line.
    The block of a line is a spacer when the line is empty or blank, and
    otherwise a paragraph in the body style whose text is the stripped
    line: not empty, without a line feed, and with no whitespace at
    either end. *)
Theorem story_blocks (title text : str) :
  List.length (story_of title text) =
    (3 + List.length (List.filter (λ c, (c =? 0x0A)%Z) text))%nat ∧
  (∃ body, story_of title text =
             Paragraph title title_style :: Spacer 1 12 :: body ∧
           body = map block_of (split 0x0A text)) ∧
  (∀ para, block_of para = Spacer 1 12 ↔ forallb isspace para = true) ∧
  (∀ para, In para (split 0x0A text) → forallb isspace para = false →
     block_of para = Paragraph (strip para) body_style ∧
     strip para ≠ [] ∧ ¬ In 0x0A (strip para) ∧
     starts_outside isspace (strip para) ∧
     starts_outside isspace (rev (strip para))).
Proof.
  assert (∀ s, strip s = [] ↔ forallb isspace s = true) as Hblank.
  { intros s. split; [|apply strip_whitespace].
    intros Hs. pose proof (filter_strip s) as Hf. rewrite Hs in Hf.
    simpl in Hf. apply forallb_forall. intros c Hc.
    destruct (isspace c) eqn:E; [done|].
    assert (In c (List.filter nonspace s)) as Hin
      by (apply filter_In; unfold nonspace; by rewrite E).
    rewrite <- Hf in Hin. destruct Hin. }
  split; [|split; [|split]].
  - unfold story_of. simpl. by rewrite length_map, split_length.
  - by eexists.
  - intros para. rewrite <- Hblank. unfold block_of.
    destruct (strip para); [done | split; done].
  - intros para Hin Hns.
    assert (strip para ≠ []) as Hne
      by (intros H; apply Hblank in H; congruence).
    split; [|split; [done|split]].
    + unfold block_of. by destruct (strip para).
    + intros H. apply strip_chars in H. by apply (split_no_sep 0x0A text para).
    + apply strip_clean_ends.
Qed.

Lemma story_blocks_witness :
  block_of [0x20; 0x6B; 0x20] = Paragraph [0x6B] body_style.
Proof.
  apply (proj2 (proj2 (proj2 (story_blocks [] [0x61; 0x0A; 0x20; 0x6B; 0x20])))
           [0x20; 0x6B; 0x20]).
  - vm_compute. right. by left.
  - reflexivity.
Defined.

(** X13.  Rendering loses whitespace only: the characters of the blocks,
    in order, are those of the title and the text once whitespace is left
    out on both sides. *)
Theorem story_keeps_text (title text : str) :
  List.filter nonspace (concat (map block_text (story_of title text))) =
    List.filter nonspace (title ++ text).
Proof.
  unfold story_of. simpl. rewrite !List.filter_app. f_equal.
  rewrite map_map, <- concat_filter_map, map_map.
  rewrite (map_ext _ (λ para, List.filter nonspace para))
    by (intros para; by rewrite block_text_block_of, filter_strip).
  rewrite concat_filter_map, split_concat.
  induction text as [|c text IH]; simpl; [done|].
  destruct (Z.eqb_spec c 0x0A) as [->|Hne]; simpl; [exact IH|].
  by rewrite IH.
Qed.

End Story.

Section WholePipeline.

Import Pdf Render.

Variable isalnum : Z → bool.

Local Abbreviation smart_run := (Pdf.smart_run isalnum).
Local Abbreviation translate_pdf := (Render.translate_pdf isalnum).
Local Abbreviation before_creation := (Render.before_creation isalnum).

(** A run of [translate_pdf], in full. *)
Lemma translate_pdf_eq w rw output_pdf_path tr :
  translate_pdf w rw output_pdf_path tr =
    match (smart_run w).1 with
    | Raised e =>
        (Raised e,
         tr ++ Say (ReadingFrom (pdf_path w)) :: map Extracting (smart_run w).2
            ++ [Say (ErrorDuring e)])
    | Returned text =>
        ((after_extraction rw output_pdf_path text).1,
         tr ++ before_creation w output_pdf_path
            ++ (after_extraction rw output_pdf_path text).2)
    end.
Proof.
  unfold after_extraction, Render.before_creation, Pdf.smart_run,
    Render.translate_pdf, Render.try_except, Render.bind, say,
    run_extraction. simpl.
  destruct (smart_extract_text_from_pdf isalnum w []) as [[text|e] etr]; simpl.
  - rewrite create_transliterated_pdf_eq.
    destruct (refusal rw _ (transliterate_text text)) as [e|]; simpl.
    + unfold Render.raise. by rewrite <- !app_assoc.
    + destruct (build_result rw output_pdf_path _) as [[]|e]; simpl;
        unfold Render.raise; by rewrite <- !app_assoc.
  - unfold Render.raise. by rewrite <- !app_assoc.
Qed.

Lemma filter_extracting (f : Render.event → bool) (l : list Pdf.event) l' :
  (∀ ev, f (Extracting ev) = false) →
  List.filter f (map Extracting l ++ l') = List.filter f l'.
Proof.
  intros Hf. induction l as [|ev l IH]; [done|]. simpl. by rewrite Hf.
Qed.

(** X14.  When the extraction raises, [translate_pdf] reports the error
    and raises the same exception again; nothing is asked of the layout
    library and no document is written. *)
Theorem translate_pdf_extraction_failure (w : Pdf.world) (rw : Render.world)
    (output_pdf_path : string) (e : exn) :
  (smart_run w).1 = Raised e →
  (translate_pdf w rw output_pdf_path []).1 = Raised e ∧
  last (translate_pdf w rw output_pdf_path []).2 = Some (Say (ErrorDuring e)) ∧
  List.filter is_build (translate_pdf w rw output_pdf_path []).2 = [] ∧
  translate_pdf w rw output_pdf_path [] =
    translate_pdf w accepting output_pdf_path [].
Proof.
  intros H. rewrite !translate_pdf_eq, H. simpl.
  split; [done|]. split; [|split; [|done]].
  - by rewrite app_comm_cons, last_snoc.
  - by rewrite filter_extracting.
Qed.

(** X15.  When the extraction returns a text and the layout library
    refuses no paragraph and writes the document, [translate_pdf]
    returns, and the one document it writes, at the output path, is the
    story of the transliterated text under the fixed title; the last line
    it prints announces the success. *)
Theorem translate_pdf_success (w : Pdf.world) (rw : Render.world)
    (output_pdf_path : string) (text : str) :
  (smart_run w).1 = Returned text →
  markup_error rw document_title = None →
  (∀ para, In para (split 0x0A (transliterate_text text)) →
           markup_error rw (strip para) = None) →
  build_result rw output_pdf_path
    (story_of document_title (transliterate_text text)) = Returned tt →
  translate_pdf w rw output_pdf_path [] =
    (Returned tt,
     before_creation w output_pdf_path
       ++ [Build output_pdf_path
             (story_of document_title (transliterate_text text));
           Say Completed]).
Proof.
  intros Hext Htitle Hparas Hbuild.
  rewrite translate_pdf_eq, Hext. unfold after_extraction.
  assert (refusal rw document_title (transliterate_text text) = None) as ->.
  { apply first_refusal_none. intros t [<-|Hin]; [done|].
    apply filter_In in Hin as [Hin _].
    apply in_map_iff in Hin as (para & <- & Hpara). by apply Hparas. }
  by rewrite Hbuild.
Qed.

(** X16.  Whatever the worlds, a run of [translate_pdf] writes one
    document at most; it returns exactly when it has announced the
    success; and when it raises, the exception is the one of the
    extraction or an [Error creating PDF] one, and the last line printed
    reports it. *)
Theorem translate_pdf_outcomes (w : Pdf.world) (rw : Render.world)
    (output_pdf_path : string) :
  let run := translate_pdf w rw output_pdf_path [] in
  (List.length (List.filter is_build run.2) <= 1)%nat ∧
  (run.1 = Returned tt ↔ In (Say Completed) run.2) ∧
  (∀ e, run.1 = Raised e →
     last run.2 = Some (Say (ErrorDuring e)) ∧
     ((smart_run w).1 = Raised e ∨ ∃ cause, e = creation_error cause)).
Proof.
  assert (∀ (l : list Pdf.event) (l' : list Render.event),
            In (Say Completed) (map Extracting l ++ l') →
            In (Say Completed) l') as Hnc.
  { intros l l' [Hin|Hin]%in_app_or; [|done].
    apply in_map_iff in Hin as (ev & Hev & _). done. }
  assert (∀ (l : list Render.event) ev ev',
            last (l ++ [ev; ev']) = Some ev') as Hlast2.
  { intros l ev ev'. change (last (l ++ [ev] ++ [ev']) = Some ev').
    by rewrite app_assoc, last_snoc. }
  assert (∀ (l : list Render.event) ev1 ev2 ev3,
            last (l ++ [ev1; ev2; ev3]) = Some ev3) as Hlast3.
  { intros l ev1 ev2 ev3.
    change (last (l ++ [ev1; ev2] ++ [ev3]) = Some ev3).
    by rewrite app_assoc, last_snoc. }
  assert (∀ (l : list Render.event) ev1 ev2 ev3 ev4,
            last (l ++ [ev1; ev2; ev3; ev4]) = Some ev4) as Hlast4.
  { intros l ev1 ev2 ev3 ev4.
    change (last (l ++ [ev1; ev2; ev3] ++ [ev4]) = Some ev4).
    by rewrite app_assoc, last_snoc. }
  simpl. rewrite translate_pdf_eq.
  destruct (smart_run w).1 as [text|e] eqn:Hext.
  - unfold Render.before_creation, after_extraction.
    set (story := story_of document_title (transliterate_text text)).
    destruct (refusal rw document_title (transliterate_text text)) as [e|].
    + simpl. rewrite <- !app_assoc. simpl.
      split; [rewrite filter_extracting by done; simpl; lia|]. split; [split; [done|]|].
      * intros [?|Hin]; [done|]. apply Hnc in Hin.
        destruct Hin as [?|[?|[?|[]]]]; done.
      * intros e' [= <-]. split; [|right; by exists e].
        by rewrite app_comm_cons, Hlast3.
    + destruct (build_result rw output_pdf_path story) as [[]|e]; simpl;
        rewrite <- !app_assoc; simpl.
      * split; [rewrite filter_extracting by done; simpl; lia|]. split; [|done].
        split; [|done]. intros _. right. apply in_or_app. right.
        simpl. auto.
      * split; [rewrite filter_extracting by done; simpl; lia|]. split; [split; [done|]|].
        -- intros [?|Hin]; [done|]. apply Hnc in Hin.
           destruct Hin as [?|[?|[?|[?|[]]]]]; done.
        -- intros e' [= <-]. split; [|right; by exists e].
           by rewrite app_comm_cons, Hlast4.
  - simpl. split; [rewrite filter_extracting by done; simpl; lia|]. split; [split; [done|]|].
    + intros [?|Hin]; [done|]. apply Hnc in Hin.
      destruct Hin as [?|[]]; done.
    + intros e' [= <-]. split; [|by left].
      by rewrite app_comm_cons, last_snoc.
Qed.

End WholePipeline.

Section Mains.

Import Pdf Render.

Variable isalnum : Z → bool.
Variable stem : string → string.

Local Abbreviation translate_pdf := (Render.translate_pdf isalnum).

Lemma translate_pdf_frame w rw output_pdf_path tr :
  translate_pdf w rw output_pdf_path tr =
    ((translate_pdf w rw output_pdf_path []).1,
     tr ++ (translate_pdf w rw output_pdf_path []).2).
Proof.
  rewrite !(translate_pdf_eq isalnum).
  by destruct (Pdf.smart_run isalnum w).1.
Qed.

(** A run of [main] of the module, in full. *)
Lemma main_eq w rw :
  Render.main isalnum w rw [] =
    match makedirs_result rw main_output_dir with
    | Raised e => (Raised e, [MakeDirs main_output_dir])
    | Returned _ =>
        (Returned tt,
         MakeDirs main_output_dir
           :: (translate_pdf w rw main_output_pdf []).2
           ++ main_report (translate_pdf w rw main_output_pdf []).1)
    end.
Proof.
  unfold Render.main, Render.bind, Render.try_except, make_directory, say.
  simpl. destruct (makedirs_result rw main_output_dir) as [[]|e]; [|done].
  rewrite translate_pdf_frame.
  destruct (translate_pdf w rw main_output_pdf []) as [[[]|e] tr']; simpl.
  - rewrite <- !app_assoc. reflexivity.
  - destruct e; simpl; rewrite <- ?app_assoc; reflexivity.
Qed.

(** X17.  Once the output directory is there, [main] of the module
    returns whatever the translation does: a failure is printed, as a
    missing file when the exception is a [FileNotFoundError] and as an
    error otherwise, and nothing is raised.  Only the creation of the
    directory can make it raise, and then nothing else has been done. *)
Theorem main_never_fails_after_makedirs (w : Pdf.world) (rw : Render.world) :
  (makedirs_result rw main_output_dir = Returned tt →
   (Render.main isalnum w rw []).1 = Returned tt ∧
   (∀ e, (translate_pdf w rw main_output_pdf []).1 = Raised e →
      last (Render.main isalnum w rw []).2 =
        Some (Say (match e with
                   | FileNotFoundError _ => MainPleaseCheck
                   | _ => MainError e
                   end))) ∧
   ((translate_pdf w rw main_output_pdf []).1 = Returned tt →
    last (Render.main isalnum w rw []).2 =
      Some (Say (MainOutput main_output_pdf)))) ∧
  (∀ e, makedirs_result rw main_output_dir = Raised e →
     Render.main isalnum w rw [] = (Raised e, [MakeDirs main_output_dir])).
Proof.
  assert (∀ (x : Render.event) l l' y,
            last (x :: l ++ l' ++ [y]) = Some y) as Hlast.
  { intros x l l' y. by rewrite app_comm_cons, app_assoc, last_snoc. }
  split.
  - intros Hdir. rewrite main_eq, Hdir. simpl. split; [done|]. split.
    + intros e ->. destruct e; simpl.
      * exact (Hlast _ _ [_] _).
      * exact (Hlast _ _ [] _).
      * exact (Hlast _ _ [] _).
    + intros ->. exact (Hlast _ _ [_; _] _).
  - intros e Hdir. by rewrite main_eq, Hdir.
Qed.

Local Abbreviation cli_main := (Cli.main isalnum stem).
Local Abbreviation cli_output := (Cli.cli_output stem).
Local Abbreviation cli_directory := Cli.cli_directory.

(** A run of [main] of the command line without [--test], in full. *)
Lemma cli_main_eq w rw output_pdf :
  cli_main w rw output_pdf false [] =
    let out := cli_output w output_pdf in
    match (cli_directory rw output_pdf).1 with
    | Raised e => (Raised e, (cli_directory rw output_pdf).2)
    | Returned _ =>
        if path_exists w then
          let run := translate_pdf w rw out [] in
          let tr := (cli_directory rw output_pdf).2
                      ++ [Say CliStarting; Say (CliInput (pdf_path w));
                          Say (CliOutput out); Say CliBlank]
                      ++ run.2 in
          match run.1 with
          | Returned _ =>
              (Returned (Some 0),
               tr ++ [Say CliCompleted; Say (CliSavedAt out)])
          | Raised e => (Returned (Some 1), tr ++ [Say (CliError e)])
          end
        else
          (Returned (Some 1),
           (cli_directory rw output_pdf).2
             ++ [Say (CliInputNotFound (pdf_path w)); Say CliProvideValidPath])
    end.
Proof.
  unfold Cli.main, Cli.cli_output, Cli.cli_directory, Render.bind,
    Render.try_except,
    make_directory, say, Render.ret.
  destruct output_pdf as [path|]; simpl.
  - destruct (path_exists w); simpl; [|done].
    rewrite translate_pdf_frame.
    destruct (translate_pdf w rw path []) as [[[]|e] tr']; simpl;
      rewrite <- ?app_assoc; reflexivity.
  - destruct (makedirs_result rw Cli.output_dir) as [[]|e]; simpl; [|done].
    destruct (path_exists w); simpl; [|done].
    rewrite translate_pdf_frame.
    destruct (translate_pdf w rw _ []) as [[[]|e] tr']; simpl;
      rewrite <- ?app_assoc; reflexivity.
Qed.

(** X18.  Without [--test] and once the output directory is there (or the
    output path is given), the command line never raises: it returns 1
    for an input that does not exist, without extracting or writing
    anything; otherwise it returns 0 when [translate_pdf] returns and 1
    when it raises.  With no output path given, the output directory is
    made before the input is looked at, and a failure to make it is
    raised. *)
Theorem cli_exit_status (w : Pdf.world) (rw : Render.world)
    (output_pdf : option string) :
  let run := cli_main w rw output_pdf false [] in
  ((cli_directory rw output_pdf).1 = Returned tt →
   (path_exists w = false →
    run.1 = Returned (Some 1) ∧
    List.filter is_extracting run.2 = [] ∧ List.filter is_build run.2 = []) ∧
   (path_exists w = true →
    (run.1 = Returned (Some 0) ↔
     (translate_pdf w rw (cli_output w output_pdf) []).1 = Returned tt) ∧
    (run.1 = Returned (Some 1) ↔
     ∃ e, (translate_pdf w rw (cli_output w output_pdf) []).1 = Raised e))) ∧
  (∀ e, output_pdf = None → makedirs_result rw Cli.output_dir = Raised e →
     run = (Raised e, [MakeDirs Cli.output_dir])) ∧
  (output_pdf = None → head run.2 = Some (MakeDirs Cli.output_dir)).
Proof.
  cbv zeta. rewrite cli_main_eq. cbv zeta. split; [|split].
  - intros ->. split.
    + intros ->. cbn [fst snd]. split; [done|].
      unfold Cli.cli_directory. by destruct output_pdf.
    + intros ->.
      destruct (translate_pdf w rw (cli_output w output_pdf) [])
        as [[[]|e] tr']; cbn [fst snd].
      * split; [done|]. split; [done|]. by intros [e ?].
      * split; [done|]. split; [by exists e | done].
  - intros e -> He. unfold Cli.cli_directory. cbn [fst snd]. by rewrite He.
  - intros ->. unfold Cli.cli_directory. cbn [fst snd].
    destruct (makedirs_result rw Cli.output_dir) as [[]|e]; [|done].
    by destruct (path_exists w),
         (translate_pdf w rw (cli_output w None) []).1.
Qed.

(** X19.  With [--test] the command line neither reads nor writes a
    file, whatever the worlds and the output argument: it prints the four
    test cases, each followed by its transliteration, and returns
    [None]. *)
Theorem cli_test_mode (w : Pdf.world) (rw : Render.world)
    (output_pdf : option string) :
  let run := cli_main w rw output_pdf true [] in
  run.1 = Returned None ∧
  forallb is_say run.2 = true ∧
  (∀ i bengali_text, nth_error Cli.test_cases i = Some bengali_text →
     ∃ before after,
       run.2 = before ++ [Say (TestCase (S i) bengali_text);
                           Say (TestResult (transliterate_text bengali_text))]
                      ++ after) ∧
  run = cli_main missing_document accepting None true [].
Proof.
  cbv zeta. split; [by vm_compute|]. split; [by vm_compute|]. split; [|done].
  intros i bengali_text Hi.
  unfold Cli.main, Cli.run_quick_test, Render.bind, say, Render.ret.
  simpl.
  destruct i as [|[|[|[|i]]]]; simpl in Hi.
  - injection Hi as <-. eexists [_; _], _. reflexivity.
  - injection Hi as <-. eexists [_; _; _; _; _], _. reflexivity.
  - injection Hi as <-. eexists [_; _; _; _; _; _; _; _], _. reflexivity.
  - injection Hi as <-.
    eexists [_; _; _; _; _; _; _; _; _; _; _], _. reflexivity.
  - by destruct i.
Qed.

End Mains.

(** ** The properties at work *)

Lemma empty_result_witness : transliterate_text [virama; virama] = [].
Proof.
  apply (proj2 (empty_result [virama; virama])).
  intros c Hc. vm_compute in Hc. by destruct Hc as [<-|[<-|[]]].
Defined.

Lemma smart_extraction_missing_file_witness :
  (Pdf.smart_run ascii_isalnum missing_document).1 =
    Pdf.Raised (Pdf.FileNotFoundError "PDF file not found: input/none.pdf").
Proof.
  by rewrite (smart_extraction_missing_file ascii_isalnum missing_document
                eq_refl).
Defined.

Lemma blank_text_layer_goes_to_ocr_witness :
  (Pdf.smart_run ascii_isalnum blank_document).1 =
    Pdf.ocr_result blank_document
      (Pdf.ocr_calls (Pdf.smart_run ascii_isalnum blank_document).2 - 1).
Proof.
  apply (blank_text_layer_goes_to_ocr ascii_isalnum blank_document
           [[]; [0x20]] eq_refl eq_refl).
  intros t [<-|[<-|[]]]; reflexivity.
Defined.

Lemma create_transliterated_pdf_run_witness :
  (Render.create_transliterated_pdf Render.accepting (py "a") "out.pdf"
     (py "T") []).2 =
    [] ++ [Render.Build "out.pdf" (Render.story_of (py "T") (py "a"))] ∧
  Render.create_transliterated_pdf Render.strict
    [0x61; 0x0A; 0x20; 0x0A; 0x3C; 0x62] "out.pdf" (py "T") [] =
    (Pdf.Raised (Pdf.Exception "Error creating PDF: unclosed tag"), []).
Proof.
  split.
  - apply (proj1 (proj1 (create_transliterated_pdf_run Render.accepting
                           (py "a") "out.pdf" (py "T") []))).
    split; reflexivity.
  - apply (proj1 (proj2 (proj2 (proj2 (proj2
             (create_transliterated_pdf_run Render.strict
                [0x61; 0x0A; 0x20; 0x0A; 0x3C; 0x62] "out.pdf" (py "T")
                []))))) (Pdf.LibraryError "unclosed tag")).
    reflexivity.
Defined.

Lemma translate_pdf_extraction_failure_witness :
  (Render.translate_pdf ascii_isalnum missing_document Render.accepting
     "out.pdf" []).1 =
    Pdf.Raised (Pdf.FileNotFoundError "PDF file not found: input/none.pdf").
Proof.
  apply (translate_pdf_extraction_failure ascii_isalnum missing_document
           Render.accepting "out.pdf").
  reflexivity.
Defined.

Lemma translate_pdf_success_witness :
  (Render.translate_pdf ascii_isalnum blank_document Render.accepting
     "out.pdf" []).1 = Pdf.Returned tt.
Proof.
  rewrite (translate_pdf_success ascii_isalnum blank_document Render.accepting
             "out.pdf" ([0x995; 0x0A; 0x0A] ++ [0x996; 0x0A; 0x0A]));
    reflexivity.
Defined.

Lemma translate_pdf_outcomes_witness :
  last (Render.translate_pdf ascii_isalnum missing_document Render.accepting
          "out.pdf" []).2 =
    Some (Render.Say (Render.ErrorDuring (not_found missing_document))).
Proof.
  apply (proj2 (proj2 (translate_pdf_outcomes ascii_isalnum missing_document
                         Render.accepting "out.pdf"))).
  reflexivity.
Defined.

Lemma main_never_fails_after_makedirs_witness :
  (Render.main ascii_isalnum missing_document Render.accepting []).1 =
    Pdf.Returned tt.
Proof.
  apply (proj1 (main_never_fails_after_makedirs ascii_isalnum
                  missing_document Render.accepting)).
  reflexivity.
Defined.

Lemma cli_exit_status_witness :
  (Cli.main ascii_isalnum path_stem missing_document Render.accepting None
     false []).1 = Pdf.Returned (Some 1) ∧
  (Cli.main ascii_isalnum path_stem blank_document Render.accepting
     (Some "out.pdf"%string) false []).1 = Pdf.Returned (Some 0).
Proof.
  split.
  - apply (proj1 (proj1 (cli_exit_status ascii_isalnum path_stem
                           missing_document Render.accepting None) eq_refl));
      reflexivity.
  - apply (proj2 (proj1 (cli_exit_status ascii_isalnum path_stem
                           blank_document Render.accepting (Some "out.pdf"%string))
                    eq_refl) eq_refl).
    reflexivity.
Defined.

Lemma cli_test_mode_witness :
  ∃ before after,
    (Cli.main ascii_isalnum path_stem missing_document Render.accepting None
       true []).2 =
      before ++ [Render.Say (Render.TestCase 1 (nth 0 Cli.test_cases []));
                 Render.Say (Render.TestResult (py "pother pachali"))]
             ++ after.
Proof.
  apply (proj1 (proj2 (proj2 (cli_test_mode ascii_isalnum path_stem
                                missing_document Render.accepting None)))
           0%nat).
  reflexivity.
Defined.

(** ** Subscripts *)

(** X20.  In every state the loop of [transliterate_word] goes through,
    the index lies between 0 and the length; the character read at the
    index exists while the loop runs, and so do the two characters after
    it whenever the first half of the test lets the second half and the
    conjunct branch read them.  No subscript is out of range (none counts
    from the end, none fails). *)
Theorem subscripts_in_range (clean_word : str) (st : Z * str) :
  reachable clean_word st →
  0 <= st.1 <= len clean_word ∧
  (st.1 < len clean_word → is_Some (clean_word !! Z.to_nat st.1)) ∧
  (st.1 < len clean_word - 2 →
   is_Some (clean_word !! Z.to_nat (st.1 + 1)) ∧
   is_Some (clean_word !! Z.to_nat (st.1 + 2))).
Proof.
  intros Hreach.
  assert (0 <= st.1 <= len clean_word) as Hi.
  { induction Hreach as [|[i result] _ IH Hlt]; simpl in *.
    - unfold len. lia.
    - unfold loop_body. destruct (conjunct_guard clean_word i) eqn:Hg; simpl.
      + apply conjunct_guard_true in Hg. lia.
      + lia. }
  split; [done|]. unfold len in *.
  split; [intros H | intros H; split]; apply lookup_lt_is_Some; lia.
Qed.

Lemma subscripts_in_range_witness :
  0 <= 3 <= len [0x995; virama; 0x9A4].
Proof.
  apply (subscripts_in_range [0x995; virama; 0x9A4] (3, py "kt")).
  apply (reachable_turn [0x995; virama; 0x9A4] (0, [])).
  - constructor.
  - reflexivity.
Defined.
